(** * aws-log-parser: the disk-backed, TTL-expiring memoization cache

    A shallow embedding of [src/aws_log_parser/cache.py]: the key encoder
    ([Cache._get_cache_key]), the store ([Cache.get], [Cache.set],
    [Cache.clear], [Cache.clear_expired]) and the memoizer
    ([cached.decorator.wrapper]).
    With it, the client of [src/aws_log_parser/aws/client.py]
    ([AwsClient.aws_session], the client accessors, [get_tag]) and the
    host counter of [src/examples/count-hosts.py] ([count_ips]).

    Conventions of the model.
    - Python objects are values of [pyvalue].  A [str] is held as its UTF-8
      bytes, a [set] as the list of its members in iteration order, a
      generator as what it yields and how it ends.
    - Exceptions are values of [res]: [Ret] for a normal return, [Raise]
      for a raised exception class.
    - The file system is a finite map from (directory, file name) to a
      file, a file being its modification time and its bytes; a
      directory is named by its path in the normal form of [pathlib].
      Cache keys are file-name safe, without a path separator (the
      memoizer only ever uses hex digests), and the file system itself
      does not fail (no permission or space errors).
    - A clock reading ([time.time()], [st_mtime]) is a double, held as
      the rational number of seconds it denotes; it is an argument of
      every operation that reads the clock.  Readings are subtracted as
      doubles are ([Float.sub]).
    - Keyword arguments are a dict: an association list with pairwise
      different names, in call-site order.  No keyword is named [self]
      (Python would reject it when the wrapper passes the arguments on
      to the bound method [_get_cache_key]).
    - A wrapped callable is a function of its arguments to a result or an
      exception; it does not touch the cache directory itself.
    - What the code takes from the interpreter and its libraries
      ([str], [hashlib.md5], [pickle.dump], [pickle.load]) is the class
      [Runtime].  The theorems hold for every runtime, those on stored
      values under [pickle_contract]; [cpython] further down is an
      executable instance, on which the code is run on concrete inputs. *)

From Stdlib Require Import ZArith QArith Qround Qabs Lqa Lia List Bool Ascii String.
From Stdlib.Strings Require Import Byte.
From Stdlib Require Import Permutation Sorted.
From stdpp Require Import base gmap strings pretty.
Import ListNotations.

(** ** Exceptions

    The exception classes the model needs.  [UserError name] is any other
    class, deriving from [Exception] directly.  [Unmodelled] is no Python
    class: it marks the places where the executable runtime leaves its
    fragment of [pickle]. *)

Inductive exn_class :=
| EOFError
| PickleError
| PicklingError
| UnpicklingError
| ValueError
| UnicodeDecodeError
| TypeError
| AttributeError
| OverflowError
| FileNotFoundError
| Unmodelled
| UserError (name : string).

(** The direct base class, for the classes that have one below
    [Exception].  ([UnicodeDecodeError] derives from [ValueError] through
    [UnicodeError].) *)
Definition base_class (e : exn_class) : option exn_class :=
  match e with
  | PicklingError | UnpicklingError => Some PickleError
  | UnicodeDecodeError => Some ValueError
  | _ => None
  end.

Definition exn_eqb (a b : exn_class) : bool :=
  match a, b with
  | EOFError, EOFError | PickleError, PickleError
  | PicklingError, PicklingError | UnpicklingError, UnpicklingError
  | ValueError, ValueError | UnicodeDecodeError, UnicodeDecodeError
  | TypeError, TypeError | AttributeError, AttributeError
  | OverflowError, OverflowError | FileNotFoundError, FileNotFoundError
  | Unmodelled, Unmodelled => true
  | UserError n, UserError m => String.eqb n m
  | _, _ => false
  end.

Definition issubclass (e c : exn_class) : bool :=
  exn_eqb e c ||
  match base_class e with
  | Some b => exn_eqb b c
  | None => false
  end.

Inductive res (A : Type) :=
| Ret (a : A)
| Raise (e : exn_class).
Arguments Ret {A} a.
Arguments Raise {A} e.

(** ** Python values

    [PObj cls attrs] is an instance of a plain class such as a dataclass:
    it has the attributes [attrs] and defines none of [__iter__],
    [__bool__] and [__len__].  [PGen yields fails] is a generator that
    yields [yields] and then stops, or raises [e] when [fails] is
    [Some e]. *)

#[warnings="-register-all"]
Inductive pyvalue :=
| PNone
| PBool (b : bool)
| PInt (n : Z)
| PStr (s : string)
| PList (items : list pyvalue)
| PTuple (items : list pyvalue)
| PDict (items : list (pyvalue * pyvalue))
| PSet (members : list pyvalue)
| PGen (yields : list pyvalue) (fails : option exn_class)
| PObj (cls : string) (attrs : list (string * pyvalue)).

(** Keyword arguments: the [**kwargs] dict, in call-site order. *)
Definition kwargs_t := list (string * pyvalue).

Fixpoint dict_get (k : string) (d : kwargs_t) : option pyvalue :=
  match d with
  | [] => None
  | (k', v) :: d' => if String.eqb k k' then Some v else dict_get k d'
  end.

Fixpoint dict_del (k : string) (d : kwargs_t) : kwargs_t :=
  match d with
  | [] => []
  | (k', v) :: d' => if String.eqb k k' then dict_del k d' else (k', v) :: dict_del k d'
  end.

(** [d.pop(k, default)]: the value and the dict that is left. *)
Definition dict_pop (k : string) (default : pyvalue) (d : kwargs_t) : pyvalue * kwargs_t :=
  (match dict_get k d with Some v => v | None => default end, dict_del k d).

(** Truth value of an object, as [if x:] and [not x] test it. *)
Definition truthy (v : pyvalue) : bool :=
  match v with
  | PNone => false
  | PBool b => b
  | PInt n => negb (n =? 0)%Z
  | PStr s => negb (String.eqb s EmptyString)
  | PList l | PTuple l | PSet l => negb (Nat.eqb (List.length l) 0)
  | PDict l => negb (Nat.eqb (List.length l) 0)
  | PGen _ _ => true
  | PObj _ _ => true
  end.

(** [getattr(v, name)] where the attribute exists: only instances carry
    attributes of their own here. *)
Definition getattr (v : pyvalue) (name : string) : option pyvalue :=
  match v with
  | PObj _ attrs => dict_get name attrs
  | _ => None
  end.

(** [hasattr(v, '__iter__')]. *)
Definition has_iter (v : pyvalue) : bool :=
  match v with
  | PStr _ | PList _ | PTuple _ | PDict _ | PSet _ | PGen _ _ => true
  | PNone | PBool _ | PInt _ | PObj _ _ => false
  end.

(** [isinstance(v, (list, tuple, dict))]. *)
Definition is_list_tuple_dict (v : pyvalue) : bool :=
  match v with
  | PList _ | PTuple _ | PDict _ => true
  | _ => false
  end.

(** The characters of a [str]: each lead byte with the continuation
    bytes (10xxxxxx) that follow it. *)
Definition is_continuation (a : ascii) : bool :=
  (128 <=? N_of_ascii a)%N && (N_of_ascii a <? 192)%N.

Fixpoint take_continuation (s : string) : string * string :=
  match s with
  | String a s' =>
      if is_continuation a
      then let (c, r) := take_continuation s' in (String a c, r)
      else (EmptyString, s)
  | EmptyString => (EmptyString, EmptyString)
  end.

Fixpoint chars_fuel (n : nat) (s : string) : list string :=
  match n, s with
  | S n', String a s' =>
      let (c, r) := take_continuation s' in String a c :: chars_fuel n' r
  | _, _ => []
  end.

Definition chars (s : string) : list string := chars_fuel (String.length s) s.

(** [list(v)] for an iterable [v]. *)
Definition py_list (v : pyvalue) : res pyvalue :=
  match v with
  | PStr s => Ret (PList (map PStr (chars s)))
  | PList l | PTuple l | PSet l => Ret (PList l)
  | PDict d => Ret (PList (map fst d))
  | PGen ys None => Ret (PList ys)
  | PGen ys (Some e) => Raise e
  | PNone | PBool _ | PInt _ | PObj _ _ => Raise TypeError
  end.

(** A callable under the decorator: what it does with positional and
    keyword arguments. *)
Definition callable := list pyvalue -> kwargs_t -> res pyvalue.

(** ** The interpreter services the cache relies on *)

Class Runtime := {
  (** [str(v)], which is also what an f-string field [{v}] formats to *)
  py_str : pyvalue -> string;
  (** [hashlib.md5(s.encode()).hexdigest()] *)
  md5_hexdigest : string -> string;
  (** the bytes [pickle.dump(v, f)] writes, or the exception it raises *)
  pickle_dumps : pyvalue -> res (list byte);
  (** the object [pickle.load(f)] builds from a file's bytes *)
  pickle_load : list byte -> res pyvalue
}.

(** What [pickle] promises: loading what was dumped gives the object back. *)
Definition pickle_contract (rt : Runtime) : Prop :=
  forall v data, pickle_dumps v = Ret data -> pickle_load data = Ret v.

(** ** The world: files and what an observer sees of a call *)

Record file := File { st_mtime : Q; content : list byte }.

Inductive event :=
| Invoked (args : list pyvalue) (kwargs : kwargs_t)
| Printed (line : string).

Record world := World {
  files : gmap (string * string) file;
  events : list event
}.

Definition M (A : Type) : Type := world -> res A * world.

Definition ret {A} (a : A) : M A := fun w => (Ret a, w).
Definition raise {A} (e : exn_class) : M A := fun w => (Raise e, w).
Definition bind {A B} (m : M A) (k : A -> M B) : M B :=
  fun w =>
    match m w with
    | (Ret a, w') => k a w'
    | (Raise e, w') => (Raise e, w')
    end.
Definition lift {A} (r : res A) : M A := fun w => (r, w).

Notation "x <- m ;; k" := (bind m (fun x => k))
  (at level 62, m at next level, right associativity).
Notation "m ;;; k" := (bind m (fun _ => k))
  (at level 62, right associativity).

(** [try: body  except classes: handler] *)
Definition try_except {A} (body : M A) (classes : list exn_class) (handler : M A) : M A :=
  fun w =>
    match body w with
    | (Raise e, w') =>
        if existsb (issubclass e) classes then handler w' else (Raise e, w')
    | r => r
    end.

(** [for x in xs: body x] *)
Fixpoint for_each {A} (xs : list A) (body : A -> M unit) : M unit :=
  match xs with
  | [] => ret tt
  | x :: xs' => body x ;;; for_each xs' body
  end.

Definition set_files (fs : gmap (string * string) file) (w : world) : world :=
  World fs (events w).

Definition emit (e : event) : M unit :=
  fun w => (Ret tt, World (files w) (events w ++ [e])).

(** [Path.exists()] *)
Definition path_exists (p : string * string) : M bool :=
  fun w => (Ret (bool_decide (is_Some (files w !! p))), w).

(** [Path.stat().st_mtime] *)
Definition stat_mtime (p : string * string) : M Q :=
  fun w =>
    match files w !! p with
    | Some f => (Ret (st_mtime f), w)
    | None => (Raise FileNotFoundError, w)
    end.

(** [open(p, 'rb')] and reading it to the end *)
Definition open_rb (p : string * string) : M (list byte) :=
  fun w =>
    match files w !! p with
    | Some f => (Ret (content f), w)
    | None => (Raise FileNotFoundError, w)
    end.

(** [open(p, 'wb')]: the file is created or truncated, and stamped. *)
Definition open_wb (p : string * string) (now : Q) : M unit :=
  fun w => (Ret tt, set_files (<[p := File now []]> (files w)) w).

(** Writing [data] and closing: the file holds [data], stamped [now]. *)
Definition write_close (p : string * string) (now : Q) (data : list byte) : M unit :=
  fun w => (Ret tt, set_files (<[p := File now data]> (files w)) w).

(** [Path.unlink()] *)
Definition unlink (p : string * string) : M unit :=
  fun w =>
    match files w !! p with
    | Some _ => (Ret tt, set_files (delete p (files w)) w)
    | None => (Raise FileNotFoundError, w)
    end.

(** [str.endswith] *)
Definition endswith (s suffix : string) : bool :=
  let n := String.length s in
  let m := String.length suffix in
  (m <=? n)%nat && String.eqb (String.substring (n - m) m s) suffix.

(** [directory.glob('*.pickle')]: the files of [directory] whose name ends
    in [.pickle], as a snapshot of the listing. *)
Definition in_glob_pickle (directory : string) (p : string * string) : bool :=
  String.eqb (fst p) directory && endswith (snd p) ".pickle".

Definition glob_pickle (directory : string) : M (list (string * string)) :=
  fun w => (Ret (List.filter (in_glob_pickle directory) (map fst (map_to_list (files w)))), w).

(** ** Clock arithmetic

    [time.time()] and [st_mtime] are doubles, finite and below [2^52] in
    magnitude (seconds since the epoch): they are held as the rational
    numbers they denote.  The code subtracts them in double arithmetic,
    which rounds the exact difference to the nearest double, and
    compares the result with the integer [ttl] exactly, as Python
    compares a [float] with an [int].  Differences of [2^53] seconds and
    more do not occur between such readings; there the model rounds to
    an integer where a double is coarser. *)

Module Float.

(** Rounding to an integer, halves to the even neighbour. *)
Definition rne (x : Q) : Z :=
  let f := Qfloor x in
  match (x - inject_Z f ?= 1 # 2)%Q with
  | Lt => f
  | Eq => if Z.even f then f else (f + 1)%Z
  | Gt => (f + 1)%Z
  end.

(** 2^k *)
Fixpoint pow2 (k : nat) : positive :=
  match k with
  | O => 1%positive
  | S k' => ((pow2 k')~0)%positive
  end.

(** The binary place of the last digit of the double nearest to [x]: the
    least [k'] from [k] on with [2^52 <= |x| * 2^k'], at most
    [k + fuel]. *)
Fixpoint scaling (fuel k : nat) (x : Q) : nat :=
  match fuel with
  | O => k
  | S fuel' =>
      if Qle_bool (inject_Z (2 ^ 52)) (Qabs x * inject_Z (Zpos (pow2 k)))
      then k
      else scaling fuel' (S k) x
  end.

(** The double nearest to [x], halves to the even neighbour: a multiple
    of [2^-k] with at most 53 binary digits for [2^-1022 <= |x| < 2^53],
    a multiple of [2^-1074] below (the subnormal numbers). *)
Definition round (x : Q) : Q :=
  let k := scaling 1074 0 x in
  Qmake (rne (x * inject_Z (Zpos (pow2 k)))) (pow2 k).

(** [a - b] on doubles: the exact difference, rounded. *)
Definition sub (a b : Q) : Q := round (a - b).

End Float.

(** [a > b] on clock readings. *)
Definition Qgtb (a b : Q) : bool := negb (Qle_bool a b).

(** [sorted(kwargs.items())].  Items are (name, value) tuples; the names
    of a dict are pairwise different, so tuple comparison is decided by
    the names, compared as Python compares [str]. *)
Fixpoint insert_item (x : string * pyvalue) (l : kwargs_t) : kwargs_t :=
  match l with
  | [] => [x]
  | y :: l' => if String.leb (fst x) (fst y) then x :: l else y :: insert_item x l'
  end.

Fixpoint sorted (l : kwargs_t) : kwargs_t :=
  match l with
  | [] => []
  | x :: l' => insert_item x (sorted l')
  end.

(** ** pathlib, on POSIX

    A path is its root ([/], [//] or none) and its parts; parsing drops
    empty parts and [.] parts, so a repeated or trailing slash and a
    leading [./] make no difference.  [..] is kept as a part. *)

Module Path.

(** [s.split('/')] *)
Fixpoint split (s : string) : list string :=
  match s with
  | EmptyString => [EmptyString]
  | String a s' =>
      if Ascii.eqb a "/"
      then EmptyString :: split s'
      else match split s' with
           | part :: parts => String a part :: parts
           | [] => [String a EmptyString]
           end
  end.

Definition parts (s : string) : list string :=
  List.filter (fun part => negb (String.eqb part "" || String.eqb part ".")) (split s).

(** Exactly two leading slashes are a root of their own. *)
Definition root (s : string) : string :=
  match s with
  | String "/" (String "/" (String "/" _)) => "/"
  | String "/" (String "/" _) => "//"
  | String "/" _ => "/"
  | _ => ""
  end.

(** [Path(s)] *)
Definition parse (s : string) : string * list string := (root s, parts s).

(** [str(p)] *)
Definition str (p : string * list string) : string :=
  match p with
  | (EmptyString, []) => "."
  | (r, ps) => r +:+ String.concat "/" ps
  end.

(** [p / s] *)
Definition joinpath (p : string * list string) (s : string) : string * list string :=
  let q := parse s in
  if String.eqb (fst q) "" then (fst p, snd p ++ snd q) else q.

End Path.

(** ** class Cache *)

Module Cache.

(** [cache_dir] is the directory as [str(self.cache_dir)]. *)
Record t := Make { cache_dir : string; ttl : Z }.

(** [Cache.__init__]: [home] is [Path.home()].  Directories are implicit
    in the file map, so the [mkdir] leaves it as it is. *)
Definition __init__ (home : string) (dir : option string) (ttl : Z) : t :=
  match dir with
  | None => Make (Path.str (Path.joinpath (Path.parse home) ".aws_log_parser_cache")) ttl
  | Some d => Make (Path.str (Path.parse d)) ttl
  end.

Section WithRuntime.
Context {rt : Runtime}.

(** The canonical string that gets hashed. *)
Definition key_str (args : list pyvalue) (kwargs : kwargs_t) : string :=
  let key_parts :=
    map py_str args ++
    map (fun kv => fst kv +:+ "=" +:+ py_str (snd kv)) (sorted kwargs) in
  String.concat ":" key_parts.

Definition _get_cache_key (args : list pyvalue) (kwargs : kwargs_t) : string :=
  md5_hexdigest (key_str args kwargs).

(** [self.cache_dir / f"{key}.pickle"], for a file-name safe [key]: the
    file [key.pickle] of the cache directory.  (A key with a path
    separator would name a file elsewhere; see the conventions.) *)
Definition _get_cache_path (self : t) (key : string) : string * string :=
  (cache_dir self, key +:+ ".pickle").

Definition get (self : t) (now : Q) (key : string) : M (bool * pyvalue) :=
  let cache_path := _get_cache_path self key in
  present <- path_exists cache_path ;;
  if negb present then ret (false, PNone) else
  mtime <- stat_mtime cache_path ;;
  if Qgtb (Float.sub now mtime) (inject_Z (ttl self)) then ret (false, PNone) else
  try_except
    (data <- open_rb cache_path ;;
     value <- lift (pickle_load data) ;;
     ret (true, value))
    [PickleError; EOFError]
    (ret (false, PNone)).

Definition set (self : t) (now : Q) (key : string) (value : pyvalue) : M unit :=
  let cache_path := _get_cache_path self key in
  open_wb cache_path now ;;;
  data <- lift (pickle_dumps value) ;;
  write_close cache_path now data.

Definition clear (self : t) : M unit :=
  cache_files <- glob_pickle (cache_dir self) ;;
  for_each cache_files unlink.

(** [time_time f] is the clock reading taken when the loop examines [f]. *)
Definition clear_expired (self : t) (time_time : string * string -> Q) : M unit :=
  cache_files <- glob_pickle (cache_dir self) ;;
  for_each cache_files (fun cache_file =>
    mtime <- stat_mtime cache_file ;;
    if Qgtb (Float.sub (time_time cache_file) mtime) (inject_Z (ttl self))
    then unlink cache_file
    else ret tt).

End WithRuntime.
End Cache.

(** ** def cached *)

Section Cached.
Context {rt : Runtime}.

(** [args and hasattr(args[0], 'verbose') and args[0].verbose] *)
Definition first_arg_verbose (args : list pyvalue) : bool :=
  match args with
  | a :: _ =>
      match getattr a "verbose" with
      | Some v => truthy v
      | None => false
      end
  | [] => false
  end.

(** Calling [func] with the arguments unpacked, recorded in the trace. *)
Definition call (func : callable) (args : list pyvalue) (kwargs : kwargs_t) : M pyvalue :=
  emit (Invoked args kwargs) ;;;
  lift (func args kwargs).

(** [if hasattr(result, '__iter__') and not isinstance(result, (list,
    tuple, dict)): result = list(result)] *)
Definition materialize (result : pyvalue) : res pyvalue :=
  if has_iter result && negb (is_list_tuple_dict result)
  then py_list result
  else Ret result.

(** The [wrapper] closure of [decorator(func)]: [now] is the clock at the
    lookup, [later] the clock when the result is written. *)
Definition wrapper (cache : Cache.t) (func_name : string) (func : callable)
    (args : list pyvalue) (kwargs : kwargs_t) (now later : Q) : M pyvalue :=
  let (force_refresh, kwargs) := dict_pop "force_refresh" (PBool false) kwargs in
  let cache_key := Cache._get_cache_key (PStr func_name :: args) kwargs in
  cached_value <-
    (if negb (truthy force_refresh) then
       hv <- Cache.get cache now cache_key ;;
       if fst hv then
         (if first_arg_verbose args
          then emit (Printed ("Using cached data for " +:+ func_name))
          else ret tt) ;;;
         ret (Some (snd hv))
       else ret None
     else ret None) ;;
  match cached_value with
  | Some value => ret value
  | None =>
      result <- call func args kwargs ;;
      result <- lift (materialize result) ;;
      Cache.set cache later cache_key result ;;;
      ret result
  end.

(** [cached(ttl, cache_dir)(func)] *)
Definition cached (home : string) (ttl : Z) (cache_dir : option string)
    (func_name : string) (func : callable) :=
  wrapper (Cache.__init__ home cache_dir ttl) func_name func.

End Cached.

(** ** hashlib.md5 (RFC 1321), for the executable runtime *)

Module MD5.

Definition K : list Z := [
    0xd76aa478; 0xe8c7b756; 0x242070db; 0xc1bdceee;
    0xf57c0faf; 0x4787c62a; 0xa8304613; 0xfd469501;
    0x698098d8; 0x8b44f7af; 0xffff5bb1; 0x895cd7be;
    0x6b901122; 0xfd987193; 0xa679438e; 0x49b40821;
    0xf61e2562; 0xc040b340; 0x265e5a51; 0xe9b6c7aa;
    0xd62f105d; 0x02441453; 0xd8a1e681; 0xe7d3fbc8;
    0x21e1cde6; 0xc33707d6; 0xf4d50d87; 0x455a14ed;
    0xa9e3e905; 0xfcefa3f8; 0x676f02d9; 0x8d2a4c8a;
    0xfffa3942; 0x8771f681; 0x6d9d6122; 0xfde5380c;
    0xa4beea44; 0x4bdecfa9; 0xf6bb4b60; 0xbebfbc70;
    0x289b7ec6; 0xeaa127fa; 0xd4ef3085; 0x04881d05;
    0xd9d4d039; 0xe6db99e5; 0x1fa27cf8; 0xc4ac5665;
    0xf4292244; 0x432aff97; 0xab9423a7; 0xfc93a039;
    0x655b59c3; 0x8f0ccc92; 0xffeff47d; 0x85845dd1;
    0x6fa87e4f; 0xfe2ce6e0; 0xa3014314; 0x4e0811a1;
    0xf7537e82; 0xbd3af235; 0x2ad7d2bb; 0xeb86d391 ]%Z.

Definition shifts : list Z := [
    7; 12; 17; 22; 7; 12; 17; 22; 7; 12; 17; 22; 7; 12; 17; 22;
    5;  9; 14; 20; 5;  9; 14; 20; 5;  9; 14; 20; 5;  9; 14; 20;
    4; 11; 16; 23; 4; 11; 16; 23; 4; 11; 16; 23; 4; 11; 16; 23;
    6; 10; 15; 21; 6; 10; 15; 21; 6; 10; 15; 21; 6; 10; 15; 21 ]%Z.

Definition w32 (x : Z) : Z := Z.land x 0xffffffff.
Definition not32 (x : Z) : Z := Z.lxor x 0xffffffff.
Definition rotl32 (x c : Z) : Z :=
  w32 (Z.lor (Z.shiftl x c) (Z.shiftr x (32 - c))).

(** The message with its padding: a 1 bit, zeros up to 56 mod 64, and
    the bit length as 8 little-endian bytes. *)
Fixpoint le_bytes (n : nat) (x : Z) : list Z :=
  match n with
  | O => []
  | S n' => Z.land x 0xff :: le_bytes n' (Z.shiftr x 8)
  end.

Definition pad (msg : list Z) : list Z :=
  let len := Z.of_nat (List.length msg) in
  let zeros := Z.to_nat ((55 - len) mod 64) in
  msg ++ [0x80%Z] ++ repeat 0%Z zeros ++ le_bytes 8 (8 * len).

Fixpoint words (bs : list Z) : list Z :=
  match bs with
  | b0 :: b1 :: b2 :: b3 :: r =>
      (b0 + Z.shiftl b1 8 + Z.shiftl b2 16 + Z.shiftl b3 24)%Z :: words r
  | _ => []
  end.

Definition round (m : list Z) (st : Z * Z * Z * Z) (i : nat) : Z * Z * Z * Z :=
  let '(a, b, c, d) := st in
  let '(f, g) :=
    if (i <? 16)%nat then (Z.lor (Z.land b c) (Z.land (not32 b) d), i)
    else if (i <? 32)%nat then (Z.lor (Z.land d b) (Z.land (not32 d) c), (5 * i + 1) mod 16)%nat
    else if (i <? 48)%nat then (Z.lxor b (Z.lxor c d), (3 * i + 5) mod 16)%nat
    else (Z.lxor c (Z.lor b (not32 d)), (7 * i) mod 16)%nat in
  let f' := w32 (f + a + nth i K 0 + nth g m 0)%Z in
  (d, w32 (b + rotl32 f' (nth i shifts 0))%Z, b, c).

Definition chunk (st : Z * Z * Z * Z) (m : list Z) : Z * Z * Z * Z :=
  let '(a0, b0, c0, d0) := st in
  let '(a, b, c, d) := fold_left (round m) (seq 0 64) st in
  (w32 (a0 + a), w32 (b0 + b), w32 (c0 + c), w32 (d0 + d))%Z.

Fixpoint chunks (n : nat) (ws : list Z) (st : Z * Z * Z * Z) : Z * Z * Z * Z :=
  match n with
  | O => st
  | S n' => chunks n' (skipn 16 ws) (chunk st (firstn 16 ws))
  end.

Definition digest (msg : list Z) : list Z :=
  let ws := words (pad msg) in
  let '(a, b, c, d) :=
    chunks (List.length ws / 16) ws
      (0x67452301, 0xefcdab89, 0x98badcfe, 0x10325476)%Z in
  le_bytes 4 a ++ le_bytes 4 b ++ le_bytes 4 c ++ le_bytes 4 d.

Definition hex_digit (x : Z) : ascii :=
  ascii_of_N (Z.to_N (if (x <? 10)%Z then 48 + x else 87 + x)%Z).

Fixpoint hex (bs : list Z) : string :=
  match bs with
  | [] => EmptyString
  | b :: r => String (hex_digit (Z.shiftr b 4)) (String (hex_digit (Z.land b 0xf)) (hex r))
  end.

Definition hexdigest (s : string) : string :=
  hex (digest (map (fun a => Z.of_N (N_of_ascii a)) (list_ascii_of_string s))).

End MD5.

(** ** str() and repr(), for the executable runtime

    Exact on ASCII text.  A non-ASCII character is kept as it is, which
    is what [repr] does for the printable ones; the ones CPython's
    Unicode tables class as not printable (the C1 controls, the soft
    hyphen, separators, unassigned code points), which [repr] escapes,
    are outside this runtime.  An instance prints as a dataclass does; a
    generator prints without its address. *)

Module PyStr.

Definition hex2 (n : N) : string :=
  String (MD5.hex_digit (Z.of_N (n / 16))) (String (MD5.hex_digit (Z.of_N (n mod 16))) EmptyString).

Definition escape_char (quote : ascii) (a : ascii) : string :=
  let n := N_of_ascii a in
  if Ascii.eqb a quote || (n =? 92)%N then String (ascii_of_N 92) (String a EmptyString)
  else if (n =? 9)%N then "\t"
  else if (n =? 10)%N then "\n"
  else if (n =? 13)%N then "\r"
  else if (n <? 32)%N || (n =? 127)%N then "\x" +:+ hex2 n
  else String a EmptyString.

Fixpoint escape (quote : ascii) (s : string) : string :=
  match s with
  | EmptyString => EmptyString
  | String a s' => escape_char quote a +:+ escape quote s'
  end.

Fixpoint contains (a : ascii) (s : string) : bool :=
  match s with
  | EmptyString => false
  | String b s' => Ascii.eqb a b || contains a s'
  end.

Definition repr_str (s : string) : string :=
  let single := ascii_of_N 39 in
  let double := ascii_of_N 34 in
  let quote := if contains single s && negb (contains double s) then double else single in
  String quote (escape quote s) +:+ String quote EmptyString.

Definition repr_int (n : Z) : string := pretty n.

Fixpoint repr (v : pyvalue) : string :=
  match v with
  | PNone => "None"
  | PBool true => "True"
  | PBool false => "False"
  | PInt n => repr_int n
  | PStr s => repr_str s
  | PList l => "[" +:+ String.concat ", " (map repr l) +:+ "]"
  | PTuple [] => "()"
  | PTuple [x] => "(" +:+ repr x +:+ ",)"
  | PTuple l => "(" +:+ String.concat ", " (map repr l) +:+ ")"
  | PDict d =>
      "{" +:+ String.concat ", " (map (fun '(k, x) => repr k +:+ ": " +:+ repr x) d) +:+ "}"
  | PSet [] => "set()"
  | PSet l => "{" +:+ String.concat ", " (map repr l) +:+ "}"
  | PGen _ _ => "<generator object>"
  | PObj cls attrs =>
      cls +:+ "(" +:+
      String.concat ", " (map (fun '(name, x) => name +:+ "=" +:+ repr x) attrs) +:+ ")"
  end.

Definition str (v : pyvalue) : string :=
  match v with
  | PStr s => s
  | _ => repr v
  end.

End PyStr.

(** ** pickle, for the executable runtime

    The unpickler follows CPython's [_pickle.c] ([load] and the
    [load_*] functions) on the opcodes that build [None], [bool], [int],
    [str], [list], [tuple], [dict] and [set] objects; protocol 5 is the
    highest it accepts.  It answers [Unmodelled] where the stream leaves
    this fragment: opcodes that import or call (GLOBAL, REDUCE, BUILD,
    ...), that read the memo (objects are values here, not references),
    text-mode opcodes, and reads of 4 GiB or more past the end of the
    file, whose outcome depends on the allocator.

    The pickler writes a protocol 4 stream with the opcodes CPython uses
    for these types, without the optional framing and memo bookkeeping.
    Model values that are no Python object (a [str] that is not UTF-8, a
    dict or set with unhashable or repeated members) are [Unmodelled],
    and so are instances, whose pickle goes through the module and name
    of their class. *)

Module Pickle.

Definition byte_to_Z (b : byte) : Z := Z.of_N (N_of_ascii (ascii_of_byte b)).
Definition byte_of_Z (z : Z) : byte := byte_of_ascii (ascii_of_N (Z.to_N z)).

(** Little-endian unsigned integers. *)
Fixpoint le_decode (bs : list byte) : Z :=
  match bs with
  | [] => 0
  | b :: r => byte_to_Z b + 256 * le_decode r
  end.

Fixpoint le_encode (n : nat) (z : Z) : list byte :=
  match n with
  | O => []
  | S n' => byte_of_Z (z mod 256) :: le_encode n' (z / 256)
  end.

(** Two's complement over [n] bytes. *)
Definition signed (n : nat) (u : Z) : Z :=
  if (u <? 2 ^ (8 * Z.of_nat n - 1))%Z then u else (u - 2 ^ (8 * Z.of_nat n))%Z.

Definition decode_long (bs : list byte) : Z :=
  match bs with
  | [] => 0
  | _ => signed (List.length bs) (le_decode bs)
  end.

(** [int.bit_length()] *)
Definition bit_length (n : Z) : Z :=
  if (n =? 0)%Z then 0 else (Z.log2 (Z.abs n) + 1)%Z.

Definition encode_long (n : Z) : list byte :=
  let nbytes := Z.to_nat (bit_length n / 8 + 1) in
  le_encode nbytes (n mod 2 ^ (8 * Z.of_nat nbytes)).

(** UTF-8 as [PyUnicode_DecodeUTF8(..., "surrogatepass")] accepts it. *)
Definition cont (b : Z) : bool := (0x80 <=? b)%Z && (b <=? 0xBF)%Z.
Definition within (lo hi b : Z) : bool := (lo <=? b)%Z && (b <=? hi)%Z.

Fixpoint utf8_valid (bs : list Z) : bool :=
  match bs with
  | [] => true
  | b0 :: r =>
      if (b0 <? 0x80)%Z then utf8_valid r
      else if within 0xC2 0xDF b0 then
        match r with
        | b1 :: r' => cont b1 && utf8_valid r'
        | _ => false
        end
      else if within 0xE0 0xEF b0 then
        match r with
        | b1 :: b2 :: r' =>
            (if (b0 =? 0xE0)%Z then within 0xA0 0xBF b1 else cont b1)
            && cont b2 && utf8_valid r'
        | _ => false
        end
      else if within 0xF0 0xF4 b0 then
        match r with
        | b1 :: b2 :: b3 :: r' =>
            (if (b0 =? 0xF0)%Z then within 0x90 0xBF b1
             else if (b0 =? 0xF4)%Z then within 0x80 0x8F b1
             else cont b1)
            && cont b2 && cont b3 && utf8_valid r'
        | _ => false
        end
      else false
  end.

Definition is_text (bs : list byte) : bool := utf8_valid (map byte_to_Z bs).

(** Hashing and equality of the objects that can be dict keys and set
    members here: [None], [bool], [int], [str] and tuples of them, with
    [True == 1] and [False == 0]. *)
Fixpoint hashable (v : pyvalue) : bool :=
  match v with
  | PNone | PBool _ | PInt _ | PStr _ => true
  | PTuple l => forallb hashable l
  | _ => false
  end.

Definition int_of_bool (b : bool) : Z := if b then 1 else 0.

Fixpoint py_eq (a b : pyvalue) : bool :=
  match a, b with
  | PNone, PNone => true
  | PBool x, PBool y => Bool.eqb x y
  | PInt x, PInt y => (x =? y)%Z
  | PBool x, PInt y => (int_of_bool x =? y)%Z
  | PInt x, PBool y => (x =? int_of_bool y)%Z
  | PStr x, PStr y => String.eqb x y
  | PTuple xs, PTuple ys =>
      (fix all2 (xs ys : list pyvalue) : bool :=
         match xs, ys with
         | [], [] => true
         | x :: xs', y :: ys' => py_eq x y && all2 xs' ys'
         | _, _ => false
         end) xs ys
  | _, _ => false
  end.

(** [d[k] = v] on a dict held as its items in insertion order. *)
Fixpoint dict_setitem (d : list (pyvalue * pyvalue)) (k v : pyvalue) : list (pyvalue * pyvalue) :=
  match d with
  | [] => [(k, v)]
  | (k', v') :: d' => if py_eq k' k then (k', v) :: d' else (k', v') :: dict_setitem d' k v
  end.

(** [s.add(x)] *)
Definition set_add (s : list pyvalue) (x : pyvalue) : list pyvalue :=
  if existsb (fun y => py_eq y x) s then s else s ++ [x].

Fixpoint pairs (l : list pyvalue) : option (list (pyvalue * pyvalue)) :=
  match l with
  | [] => Some []
  | k :: v :: r =>
      match pairs r with
      | Some ps => Some ((k, v) :: ps)
      | None => None
      end
  | [_] => None
  end.

(** *** The unpickler *)

Inductive item := Val (v : pyvalue) | Mark.

Inductive outcome :=
| Continue (input : list byte) (stack : list item)
| Stop (v : pyvalue)
| Fail (e : exn_class).

(** Reading [size] argument bytes. *)
Definition with_bytes (size : Z) (input : list byte)
    (k : list byte -> list byte -> outcome) : outcome :=
  if (size <=? Z.of_nat (List.length input))%Z
  then k (firstn (Z.to_nat size) input) (skipn (Z.to_nat size) input)
  else if (size <? 2 ^ 32)%Z then Fail UnpicklingError
  else Fail Unmodelled.

(** The objects above the topmost mark, oldest first, and the stack
    below that mark. *)
Fixpoint pop_mark (stack : list item) (acc : list pyvalue) : option (list pyvalue * list item) :=
  match stack with
  | [] => None
  | Mark :: rest => Some (acc, rest)
  | Val v :: rest => pop_mark rest (v :: acc)
  end.

Definition push (v : pyvalue) (input : list byte) (stack : list item) : outcome :=
  Continue input (Val v :: stack).

Definition load_unicode (size : Z) (input : list byte) (stack : list item) : outcome :=
  with_bytes size input (fun s rest =>
    if is_text s then push (PStr (string_of_list_byte s)) rest stack
    else Fail UnicodeDecodeError).

(** [do_append]: extend the list under [items]. *)
Definition do_append (items : list pyvalue) (input : list byte) (below : list item) : outcome :=
  match below with
  | Val target :: below' =>
      match items with
      | [] => Continue input below
      | _ =>
          match target with
          | PList l => Continue input (Val (PList (l ++ items)) :: below')
          | _ => Fail AttributeError
          end
      end
  | _ => Fail UnpicklingError
  end.

Definition dict_update (d : list (pyvalue * pyvalue)) (ps : list (pyvalue * pyvalue))
  : option (list (pyvalue * pyvalue)) :=
  fold_left (fun acc kv =>
    match acc with
    | Some d' => if hashable (fst kv) then Some (dict_setitem d' (fst kv) (snd kv)) else None
    | None => None
    end) ps (Some d).

(** [do_setitems]: store the key/value pairs [items] into the dict under
    them. *)
Definition do_setitems (items : list pyvalue) (input : list byte) (below : list item) : outcome :=
  match below with
  | Val target :: below' =>
      match items with
      | [] => Continue input below
      | _ =>
          match pairs items with
          | None => Fail UnpicklingError
          | Some ps =>
              match target with
              | PDict d =>
                  match dict_update d ps with
                  | Some d' => Continue input (Val (PDict d') :: below')
                  | None => Fail TypeError
                  end
              | PList _ => Fail Unmodelled
              | _ => Fail TypeError
              end
          end
      end
  | _ => Fail UnpicklingError
  end.

Definition do_additems (items : list pyvalue) (input : list byte) (below : list item) : outcome :=
  match below with
  | Val target :: below' =>
      match items with
      | [] => Continue input below
      | _ =>
          match target with
          | PSet s =>
              if forallb hashable items
              then Continue input (Val (PSet (fold_left set_add items s)) :: below')
              else Fail TypeError
          | _ => Fail AttributeError
          end
      end
  | _ => Fail UnpicklingError
  end.

(** Opcodes of protocols 0 to 5 that this fragment leaves out. *)
Definition left_out (op : byte) : bool :=
  match op with
  | x32 (* DUP *) | x46 (* FLOAT *) | x49 (* INT *) | x4c (* LONG *)
  | x50 (* PERSID *) | x51 (* BINPERSID *) | x52 (* REDUCE *)
  | x53 (* STRING *) | x54 (* BINSTRING *) | x55 (* SHORT_BINSTRING *)
  | x56 (* UNICODE *) | x62 (* BUILD *) | x63 (* GLOBAL *) | x64 (* DICT *)
  | x67 (* GET *) | x68 (* BINGET *) | x69 (* INST *) | x6a (* LONG_BINGET *)
  | x6c (* LIST *) | x6f (* OBJ *) | x70 (* PUT *) | x71 (* BINPUT *)
  | x72 (* LONG_BINPUT *) | x47 (* BINFLOAT *)
  | x81 (* NEWOBJ *) | x82 | x83 | x84 (* EXT1, EXT2, EXT4 *)
  | x42 (* BINBYTES *) | x43 (* SHORT_BINBYTES *) | x8e (* BINBYTES8 *)
  | x91 (* FROZENSET *) | x92 (* NEWOBJ_EX *) | x93 (* STACK_GLOBAL *)
  | x96 (* BYTEARRAY8 *) | x97 (* NEXT_BUFFER *) | x98 (* READONLY_BUFFER *) => true
  | _ => false
  end.

(** One turn of the [load] loop: read an opcode and run it. *)
Definition step (input : list byte) (stack : list item) : outcome :=
  match input with
  | [] => Fail EOFError
  | op :: input =>
      match op with
      | x80 (* PROTO *) =>
          with_bytes 1 input (fun s rest =>
            if (le_decode s <=? 5)%Z then Continue rest stack else Fail ValueError)
      | x95 (* FRAME *) =>
          with_bytes 8 input (fun s rest =>
            let size := le_decode s in
            if (2 ^ 63 <=? size)%Z then Fail OverflowError
            else with_bytes size rest (fun _ _ => Continue rest stack))
      | x2e (* STOP *) =>
          match stack with
          | Val v :: _ => Stop v
          | _ => Fail UnpicklingError
          end
      | x28 (* MARK *) => Continue input (Mark :: stack)
      | x30 (* POP *) =>
          match stack with
          | _ :: stack' => Continue input stack'
          | [] => Fail UnpicklingError
          end
      | x31 (* POP_MARK *) =>
          match pop_mark stack [] with
          | Some (_, below) => Continue input below
          | None => Fail UnpicklingError
          end
      | x94 (* MEMOIZE *) =>
          match stack with
          | Val _ :: _ => Continue input stack
          | _ => Fail UnpicklingError
          end
      | x4e (* NONE *) => push PNone input stack
      | x88 (* NEWTRUE *) => push (PBool true) input stack
      | x89 (* NEWFALSE *) => push (PBool false) input stack
      | x4b (* BININT1 *) =>
          with_bytes 1 input (fun s rest => push (PInt (le_decode s)) rest stack)
      | x4d (* BININT2 *) =>
          with_bytes 2 input (fun s rest => push (PInt (le_decode s)) rest stack)
      | x4a (* BININT *) =>
          with_bytes 4 input (fun s rest => push (PInt (signed 4 (le_decode s))) rest stack)
      | x8a (* LONG1 *) =>
          with_bytes 1 input (fun s rest =>
            with_bytes (le_decode s) rest (fun s' rest' =>
              push (PInt (decode_long s')) rest' stack))
      | x8b (* LONG4 *) =>
          with_bytes 4 input (fun s rest =>
            let size := signed 4 (le_decode s) in
            if (size <? 0)%Z then Fail UnpicklingError
            else with_bytes size rest (fun s' rest' =>
                   push (PInt (decode_long s')) rest' stack))
      | x8c (* SHORT_BINUNICODE *) =>
          with_bytes 1 input (fun s rest => load_unicode (le_decode s) rest stack)
      | x58 (* BINUNICODE *) =>
          with_bytes 4 input (fun s rest => load_unicode (le_decode s) rest stack)
      | x8d (* BINUNICODE8 *) =>
          with_bytes 8 input (fun s rest =>
            let size := le_decode s in
            if (2 ^ 63 <=? size)%Z then Fail OverflowError
            else load_unicode size rest stack)
      | x5d (* EMPTY_LIST *) => push (PList []) input stack
      | x29 (* EMPTY_TUPLE *) => push (PTuple []) input stack
      | x7d (* EMPTY_DICT *) => push (PDict []) input stack
      | x8f (* EMPTY_SET *) => push (PSet []) input stack
      | x61 (* APPEND *) =>
          match stack with
          | Val v :: (Val _ :: _) as below => do_append [v] input below
          | _ => Fail UnpicklingError
          end
      | x65 (* APPENDS *) =>
          match pop_mark stack [] with
          | Some (items, below) => do_append items input below
          | None => Fail UnpicklingError
          end
      | x73 (* SETITEM *) =>
          match stack with
          | Val v :: Val k :: (Val _ :: _) as below => do_setitems [k; v] input below
          | _ => Fail UnpicklingError
          end
      | x75 (* SETITEMS *) =>
          match pop_mark stack [] with
          | Some (items, below) => do_setitems items input below
          | None => Fail UnpicklingError
          end
      | x90 (* ADDITEMS *) =>
          match pop_mark stack [] with
          | Some (items, below) => do_additems items input below
          | None => Fail UnpicklingError
          end
      | x74 (* TUPLE *) =>
          match pop_mark stack [] with
          | Some (items, below) => push (PTuple items) input below
          | None => Fail UnpicklingError
          end
      | x85 (* TUPLE1 *) =>
          match stack with
          | Val a :: below => push (PTuple [a]) input below
          | _ => Fail UnpicklingError
          end
      | x86 (* TUPLE2 *) =>
          match stack with
          | Val b :: Val a :: below => push (PTuple [a; b]) input below
          | _ => Fail UnpicklingError
          end
      | x87 (* TUPLE3 *) =>
          match stack with
          | Val c :: Val b :: Val a :: below => push (PTuple [a; b; c]) input below
          | _ => Fail UnpicklingError
          end
      | _ => if left_out op then Fail Unmodelled else Fail UnpicklingError
      end
  end.

(** The loop.  Every turn that continues has read at least the opcode,
    so [S (length data)] turns are enough (see [run_enough]). *)
Fixpoint run (turns : nat) (input : list byte) (stack : list item) : res pyvalue :=
  match turns with
  | O => Raise Unmodelled
  | S turns' =>
      match step input stack with
      | Continue input' stack' => run turns' input' stack'
      | Stop v => Ret v
      | Fail e => Raise e
      end
  end.

Definition load (data : list byte) : res pyvalue :=
  run (S (List.length data)) data [].

(** *** The pickler *)

Definition save_long (n : Z) : res (list byte) :=
  if (0 <=? n)%Z && (n <? 256)%Z then Ret (x4b :: le_encode 1 n)
  else if (0 <=? n)%Z && (n <? 65536)%Z then Ret (x4d :: le_encode 2 n)
  else if (- 2 ^ 31 <=? n)%Z && (n <? 2 ^ 31)%Z then Ret (x4a :: le_encode 4 (n mod 2 ^ 32))
  else
    let bs := encode_long n in
    let len := Z.of_nat (List.length bs) in
    if (len <? 256)%Z then Ret (x8a :: le_encode 1 len ++ bs)
    else if (len <? 2 ^ 31)%Z then Ret (x8b :: le_encode 4 len ++ bs)
    else Raise OverflowError.

Definition save_str (s : string) : res (list byte) :=
  let bs := list_byte_of_string s in
  let len := Z.of_nat (List.length bs) in
  if negb (is_text bs) then Raise Unmodelled
  else if (len <? 256)%Z then Ret (x8c :: le_encode 1 len ++ bs)
  else if (len <? 2 ^ 32)%Z then Ret (x58 :: le_encode 4 len ++ bs)
  else if (len <? 2 ^ 63)%Z then Ret (x8d :: le_encode 8 len ++ bs)
  else Raise OverflowError.

(** Members that can stand in one dict or set: hashable and pairwise
    unequal. *)
Fixpoint distinct (seen ks : list pyvalue) : bool :=
  match ks with
  | [] => true
  | k :: r =>
      hashable k && negb (existsb (fun y => py_eq y k) seen) && distinct (seen ++ [k]) r
  end.

Definition seq_res (a b : res (list byte)) : res (list byte) :=
  match a with
  | Ret x => match b with Ret y => Ret (x ++ y) | Raise e => Raise e end
  | Raise e => Raise e
  end.

(** An empty container, then its members between MARK and [close]. *)
Definition batch (empty close : byte) (n : nat) (members : res (list byte)) : res (list byte) :=
  match n with
  | O => Ret [empty]
  | _ => seq_res (Ret [empty; x28]) (seq_res members (Ret [close]))
  end.

(** The members of a container, one after the other. *)
Definition save_all (save : pyvalue -> res (list byte)) : list pyvalue -> res (list byte) :=
  fix go (l : list pyvalue) : res (list byte) :=
    match l with
    | [] => Ret []
    | x :: l' => seq_res (save x) (go l')
    end.

Definition save_items (save : pyvalue -> res (list byte))
  : list (pyvalue * pyvalue) -> res (list byte) :=
  fix go (l : list (pyvalue * pyvalue)) : res (list byte) :=
    match l with
    | [] => Ret []
    | (k, x) :: l' => seq_res (save k) (seq_res (save x) (go l'))
    end.

Fixpoint save (v : pyvalue) : res (list byte) :=
  match v with
  | PNone => Ret [x4e]
  | PBool true => Ret [x88]
  | PBool false => Ret [x89]
  | PInt n => save_long n
  | PStr s => save_str s
  | PList l => batch x5d x65 (List.length l) (save_all save l)
  | PTuple [] => Ret [x29]
  | PTuple l => seq_res (Ret [x28]) (seq_res (save_all save l) (Ret [x74]))
  | PDict d =>
      if distinct [] (map fst d)
      then batch x7d x75 (List.length d) (save_items save d)
      else Raise Unmodelled
  | PSet s =>
      if distinct [] s
      then batch x8f x90 (List.length s) (save_all save s)
      else Raise Unmodelled
  | PGen _ _ => Raise TypeError
  | PObj _ _ => Raise Unmodelled
  end.

Definition dumps (v : pyvalue) : res (list byte) :=
  seq_res (Ret [x80; x04]) (seq_res (save v) (Ret [x2e])).

End Pickle.

(** The executable runtime. *)
#[export] Instance cpython : Runtime := {
  py_str := PyStr.str;
  md5_hexdigest := MD5.hexdigest;
  pickle_dumps := Pickle.dumps;
  pickle_load := Pickle.load
}.

(** ** aws/client.py

    What the client takes from boto3 is the class [Boto3]: creating a
    session from keyword arguments, creating a service client from a
    session, and the STS call [assume_role], each returning or raising.
    The dataclass fields hold any object, as in Python; [tags] is the
    list of the items of the iterable passed, and [name] a [str]. *)

(** [d[k]] for a [str] [k]: only a dict has string subscripts. *)
Definition subscript (d : pyvalue) (k : string) : res pyvalue :=
  match d with
  | PDict items =>
      match find (fun kv => match fst kv with PStr s => String.eqb s k | _ => false end)
                 items with
      | Some kv => Ret (snd kv)
      | None => Raise (UserError "KeyError")
      end
  | _ => Raise TypeError
  end.

(** [x == name] for a [str] [name]. *)
Definition eq_str (x : pyvalue) (name : string) : bool :=
  match x with
  | PStr s => String.eqb s name
  | _ => false
  end.

(** [AwsClient.get_tag] and [AwsService.get_tag], which have the same
    body.  Leaving the loop without a match returns [None]. *)
Fixpoint get_tag (tags : list pyvalue) (name : string) : res pyvalue :=
  match tags with
  | [] => Ret PNone
  | tag :: tags' =>
      match subscript tag "Key" with
      | Raise e => Raise e
      | Ret key =>
          if eq_str key name then subscript tag "Value"
          else get_tag tags' name
      end
  end.

Class Boto3 := {
  session : Type;
  client : Type;
  (** [boto3.session.Session], called with keyword arguments *)
  Session : kwargs_t -> res session;
  (** [session.client(service_name)] *)
  session_client : session -> string -> res client;
  (** [sts_client.assume_role], called with keyword arguments *)
  assume_role : client -> kwargs_t -> res pyvalue
}.

Module AwsClient.

Section WithBoto3.
Context {rt : Runtime} {boto3 : Boto3}.

Record t := Make {
  region : pyvalue;
  profile : pyvalue;
  role_arn : pyvalue;
  role_session_name : pyvalue;
  external_id : pyvalue;
  verbose : pyvalue;
  _session : option session;
  _sts_client : option client;
  _role_credentials : option pyvalue
}.

(** What an observer sees of the client: what it prints and what it asks
    of boto3. *)
Inductive effect :=
| Output (line : string)
| NewSession (kwargs : kwargs_t)
| NewClient (s : session) (service_name : string)
| AssumeRole (sts : client) (kwargs : kwargs_t).

(** Code of the client: reads and writes the fields of [self], adds to
    the trace, returns or raises. *)
Definition St (A : Type) : Type := t * list effect -> res A * (t * list effect).

Definition unit_ {A} (a : A) : St A := fun st => (Ret a, st).

Definition then_ {A B} (m : St A) (k : A -> St B) : St B :=
  fun st =>
    match m st with
    | (Ret a, st') => k a st'
    | (Raise e, st') => (Raise e, st')
    end.

Definition this : St t := fun st => (Ret (fst st), st).

Definition assign (f : t -> t) : St unit := fun st => (Ret tt, (f (fst st), snd st)).

(** An effect and its outcome. *)
Definition perform {A} (e : effect) (outcome : res A) : St A :=
  fun st => (outcome, (fst st, snd st ++ [e])).

Definition pure {A} (r : res A) : St A := fun st => (r, st).

Definition set__session (s : session) (self : t) : t :=
  Make (region self) (profile self) (role_arn self) (role_session_name self)
       (external_id self) (verbose self) (Some s) (_sts_client self)
       (_role_credentials self).

Definition set__sts_client (c : client) (self : t) : t :=
  Make (region self) (profile self) (role_arn self) (role_session_name self)
       (external_id self) (verbose self) (_session self) (Some c)
       (_role_credentials self).

Definition set__role_credentials (d : pyvalue) (self : t) : t :=
  Make (region self) (profile self) (role_arn self) (role_session_name self)
       (external_id self) (verbose self) (_session self) (_sts_client self)
       (Some d).

(** [a or b] *)
Definition or_ (a b : pyvalue) : pyvalue := if truthy a then a else b.

(** [if self.verbose: print(line)] *)
Definition print_if_verbose (self : t) (line : string) : St unit :=
  if truthy (verbose self) then perform (Output line) (Ret tt) else unit_ tt.

(** The dict passed to [assume_role]. *)
Definition assume_role_kwargs (self : t) : kwargs_t :=
  let kwargs :=
    [("RoleArn", role_arn self);
     ("RoleSessionName", or_ (role_session_name self) (PStr "aws-log-parser-session"))] in
  if truthy (external_id self)
  then kwargs ++ [("ExternalId", external_id self)]
  else kwargs.

(** The property [aws_session]. *)
Definition aws_session : St (option session) :=
  then_ this (fun self =>
  then_
    (match _session self with
     | Some _ => unit_ tt
     | None =>
         let kwargs := [("region_name", region self); ("profile_name", profile self)] in
         then_ (perform (NewSession kwargs) (Session kwargs)) (fun s =>
         then_ (assign (set__session s)) (fun _ =>
         if truthy (role_arn self) then
           then_ (print_if_verbose self ("Assuming role: " +:+ py_str (role_arn self)))
             (fun _ =>
           then_ (perform (NewClient s "sts") (session_client s "sts")) (fun sts =>
           then_ (assign (set__sts_client sts)) (fun _ =>
           let kwargs := assume_role_kwargs self in
           then_ (perform (AssumeRole sts kwargs) (assume_role sts kwargs)) (fun response =>
           then_ (pure (subscript response "Credentials")) (fun credentials =>
           then_ (assign (set__role_credentials credentials)) (fun _ =>
           then_ (pure (subscript credentials "AccessKeyId")) (fun access_key =>
           then_ (pure (subscript credentials "SecretAccessKey")) (fun secret_key =>
           then_ (pure (subscript credentials "SessionToken")) (fun token =>
           let kwargs :=
             [("aws_access_key_id", access_key);
              ("aws_secret_access_key", secret_key);
              ("aws_session_token", token);
              ("region_name", region self)] in
           then_ (perform (NewSession kwargs) (Session kwargs)) (fun assumed =>
           then_ (assign (set__session assumed)) (fun _ =>
           print_if_verbose self
             ("Successfully assumed role: " +:+ py_str (role_arn self)))))))))))))
         else unit_ tt))
     end)
    (fun _ => then_ this (fun self => unit_ (_session self)))).

(** [self.aws_session.client(service_name)] *)
Definition aws_client (service_name : string) : St client :=
  then_ aws_session (fun s =>
  match s with
  | Some s => perform (NewClient s service_name) (session_client s service_name)
  | None => pure (Raise AttributeError)
  end).

Definition ec2_client : St client := aws_client "ec2".

Definition s3_client : St client := aws_client "s3".

End WithBoto3.
End AwsClient.

(** A stand-in for boto3, to run the client on concrete inputs: a
    session is the keyword arguments it was created from, a client is
    its session and its service name, and STS answers [sts]. *)
Definition boto3_double (sts : kwargs_t -> res pyvalue) : Boto3 := {|
  session := kwargs_t;
  client := kwargs_t * string;
  Session := Ret;
  session_client := fun s service_name => Ret (s, service_name);
  assume_role := fun _ kwargs => sts kwargs
|}.

(** ** examples/count-hosts.py

    [entries] is the list of the items the iterable yields.  The values
    counted are strings (the addresses as the parser gives them); for any
    other value the model stops with [Unmodelled]. *)

(** [s.split('.')] *)
Fixpoint split_dot (s : string) : list string :=
  match s with
  | EmptyString => [EmptyString]
  | String a s' =>
      if Ascii.eqb a "."
      then EmptyString :: split_dot s'
      else match split_dot s' with
           | part :: parts => String a part :: parts
           | [] => [String a EmptyString]
           end
  end.

(** [operator.attrgetter(attr)(obj)]: a dotted name is followed
    attribute by attribute. *)
Fixpoint resolve_attr (names : list string) (obj : pyvalue) : res pyvalue :=
  match names with
  | [] => Ret obj
  | name :: names' =>
      match getattr obj name with
      | Some v => resolve_attr names' v
      | None => Raise AttributeError
      end
  end.

Definition attrgetter (attr : string) (obj : pyvalue) : res pyvalue :=
  resolve_attr (split_dot attr) obj.

(** [counter[k] += 1] on a [Counter] held as its items in insertion
    order. *)
Fixpoint count_up (counter : list (string * Z)) (k : string) : list (string * Z) :=
  match counter with
  | [] => [(k, 1%Z)]
  | (k', n) :: rest =>
      if String.eqb k' k then (k', (n + 1)%Z) :: rest
      else (k', n) :: count_up rest k
  end.

(** [Counter(attrgetter(ip_attr)(entry) for entry in entries)], started
    from the items [counter]. *)
Fixpoint Counter (ip_attr : string) (entries : list pyvalue) (counter : list (string * Z))
  : res (list (string * Z)) :=
  match entries with
  | [] => Ret counter
  | entry :: entries' =>
      match attrgetter ip_attr entry with
      | Ret (PStr ip) => Counter ip_attr entries' (count_up counter ip)
      | Ret _ => Raise Unmodelled
      | Raise e => Raise e
      end
  end.

Section CountHosts.
Context {rt : Runtime}.

(** The line printed for one item of the counter. *)
Definition count_line (item : string * pyvalue) : string :=
  py_str (PStr (fst item)) +:+ ": " +:+ py_str (snd item).

Definition count_ips (entries : list pyvalue) (ip_attr : string) : M unit :=
  counter <- lift (Counter ip_attr entries []) ;;
  for_each (sorted (map (fun kn => (fst kn, PInt (snd kn))) counter))
    (fun item => emit (Printed (count_line item))).

End CountHosts.

(** * Properties

    Auxiliary notions, then the lemmas and the theorems. *)

(** Order of the items of [sorted]: by name. *)
Definition key_le (x y : string * pyvalue) : Prop := String.leb (fst x) (fst y) = true.

Definition total_length (l : list string) : nat :=
  fold_right (fun s n => (String.length s + n)%nat) 0%nat l.

(** The world after one more event. *)
Definition add_event (e : event) (w : world) : world := World (files w) (events w ++ [e]).

(** One turn of the loop of [clear_expired]. *)
Definition sweep_one (c : Cache.t) (time_time : string * string -> Q)
    (cache_file : string * string) : M unit :=
  mtime <- stat_mtime cache_file ;;
  if Qgtb (Float.sub (time_time cache_file) mtime) (inject_Z (Cache.ttl c))
  then unlink cache_file
  else ret tt.

(** The file [f] at [p] is removed by the sweep when [p] is listed and
    [f] is older than the ttl at the reading taken for [p]. *)
Definition swept (c : Cache.t) (time_time : string * string -> Q)
    (listed : string * string -> bool) (p : string * string) (f : file) : bool :=
  listed p && Qgtb (Float.sub (time_time p) (st_mtime f)) (inject_Z (Cache.ttl c)).

Section Auxiliary.
Context {rt : Runtime}.

(** The part a keyword argument contributes to the canonical string. *)
Definition kw_part (kv : string * pyvalue) : string :=
  fst kv +:+ "=" +:+ py_str (snd kv).

(** The path the wrapper takes on a miss or a forced refresh: call,
    materialize, store, return. *)
Definition compute (cache : Cache.t) (cache_key : string) (func : callable)
    (args : list pyvalue) (kwargs : kwargs_t) (later : Q) : M pyvalue :=
  result <- call func args kwargs ;;
  result <- lift (materialize result) ;;
  Cache.set cache later cache_key result ;;;
  ret result.

End Auxiliary.

(** [advances i s i' s']: the unpickler loop started on input [i] with
    stack [s] comes to input [i'] with stack [s'], with turns to spare. *)
Definition advances (i : list byte) (s : list Pickle.item)
    (i' : list byte) (s' : list Pickle.item) : Prop :=
  forall n, (List.length i < n)%nat ->
    exists n', (List.length i' < n')%nat /\ Pickle.run n i s = Pickle.run n' i' s'.

(** The stack after the members of a container were pushed. *)
Definition pushed (l : list pyvalue) (s : list Pickle.item) : list Pickle.item :=
  rev (map Pickle.Val l) ++ s.

(** Keys and values of a dict in the order they are pushed. *)
Definition flat (d : list (pyvalue * pyvalue)) : list pyvalue :=
  flat_map (fun kv => [fst kv; snd kv]) d.

(** The round trip of one object, as the induction needs it. *)
Definition loads_back (v : pyvalue) : Prop :=
  forall bs, Pickle.save v = Ret bs ->
  forall rest st, advances (bs ++ rest) st rest (Pickle.Val v :: st).

(** A key that names a file of the cache directory itself: it has no
    path separator and no NUL character. *)
Fixpoint file_name_safe (key : string) : bool :=
  match key with
  | EmptyString => true
  | String a key' =>
      negb (Ascii.eqb a "/") && negb (Ascii.eqb a "000") && file_name_safe key'
  end.

(** The count a counter holds for a key, 0 when it has none. *)
Fixpoint tally (counter : list (string * Z)) (k : string) : Z :=
  match counter with
  | [] => 0%Z
  | (k', n) :: rest => if String.eqb k' k then n else tally rest k
  end.

(** How often [k] occurs in [l]. *)
Definition occurrences (k : string) (l : list string) : Z :=
  Z.of_nat (List.length (List.filter (String.eqb k) l)).

(** An item of a counter as the tuple that is sorted and printed. *)
Definition as_item (kn : string * Z) : string * pyvalue := (fst kn, PInt (snd kn)).

(** Expose what [step] does on the opcode at the head of the input. *)
Ltac step_opcode := cbv beta iota delta [Pickle.step].


(** ** The key encoder *)

Lemma string_leb_trans s1 s2 s3 :
  String.leb s1 s2 = true -> String.leb s2 s3 = true -> String.leb s1 s3 = true.
Proof.
  unfold String.leb. revert s2 s3.
  induction s1 as [|a s1 IH]; intros [|b s2] [|c s3]; simpl; try done.
  unfold Ascii.compare.
  destruct (N.compare_spec (N_of_ascii a) (N_of_ascii b)) as [Hab|Hab|Hab];
    destruct (N.compare_spec (N_of_ascii b) (N_of_ascii c)) as [Hbc|Hbc|Hbc];
    destruct (N.compare_spec (N_of_ascii a) (N_of_ascii c)) as [Hac|Hac|Hac];
    try done; try lia.
  apply IH.
Qed.

Lemma insert_item_perm x l : Permutation (insert_item x l) (x :: l).
Proof.
  induction l as [|y l IH]; simpl; [done|].
  destruct (String.leb (fst x) (fst y)); [done|].
  rewrite IH. apply perm_swap.
Qed.

Lemma sorted_perm l : Permutation (sorted l) l.
Proof.
  induction l as [|x l IH]; simpl; [done|].
  rewrite insert_item_perm. by constructor.
Qed.

Lemma insert_item_sorted x l :
  StronglySorted key_le l -> StronglySorted key_le (insert_item x l).
Proof.
  induction 1 as [|y l Hl IH Hy]; simpl.
  - repeat constructor.
  - destruct (String.leb (fst x) (fst y)) eqn:E.
    + constructor; [by constructor|].
      constructor; [done|].
      eapply Forall_impl; [exact Hy|].
      intros z Hz. unfold key_le in *. eauto using string_leb_trans.
    + constructor; [done|].
      rewrite insert_item_perm. constructor; [|done].
      unfold key_le. destruct (String.leb_total (fst x) (fst y)); congruence.
Qed.

Lemma sorted_sorted l : StronglySorted key_le (sorted l).
Proof.
  induction l; simpl; [constructor|by apply insert_item_sorted].
Qed.

(** With pairwise different names there is one sorted arrangement. *)
Lemma sorted_unique l1 l2 :
  List.NoDup (map fst l1) -> Permutation l1 l2 ->
  StronglySorted key_le l1 -> StronglySorted key_le l2 -> l1 = l2.
Proof.
  revert l2. induction l1 as [|x l1 IH]; intros l2 Hnd Hp H1 H2.
  - by apply Permutation_nil in Hp.
  - destruct l2 as [|y l2]; [by apply Permutation_sym, Permutation_nil in Hp|].
    assert (x = y) as ->.
    { assert (In x (y :: l2)) as Hx by (eapply Permutation_in; [exact Hp|by left]).
      assert (In y (x :: l1)) as Hy
        by (eapply Permutation_in; [exact (Permutation_sym Hp)|by left]).
      destruct Hx as [->|Hx]; [done|]. destruct Hy as [->|Hy]; [done|].
      apply StronglySorted_inv in H1 as [_ H1]. apply StronglySorted_inv in H2 as [_ H2].
      rewrite List.Forall_forall in H1, H2.
      assert (fst x = fst y) as Hk
        by (apply String.leb_antisym; [exact (H1 _ Hy)|exact (H2 _ Hx)]).
      apply List.NoDup_cons_iff in Hnd as [Hnd _].
      exfalso. apply Hnd. rewrite Hk. by apply in_map. }
    f_equal. apply IH.
    + by apply List.NoDup_cons_iff in Hnd as [_ ?].
    + by apply Permutation_cons_inv in Hp.
    + by apply StronglySorted_inv in H1 as [? _].
    + by apply StronglySorted_inv in H2 as [? _].
Qed.

Lemma sorted_order_independent kw1 kw2 :
  List.NoDup (map fst kw1) -> Permutation kw1 kw2 -> sorted kw1 = sorted kw2.
Proof.
  intros Hnd Hp. apply sorted_unique; auto using sorted_sorted.
  - eapply Permutation_NoDup; [|exact Hnd].
    apply Permutation_map, Permutation_sym, sorted_perm.
  - rewrite !sorted_perm. done.
Qed.

Section KeyEncoder.
Context {rt : Runtime}.

(** C8.  Key encoding is a function of the function identity, the
    positional arguments in order, and the keyword-argument mapping: two
    calls that give the same keyword arguments in a different call-site
    order get the same key, because the items are sorted by name first. *)
Theorem key_independent_of_keyword_order
    (args : list pyvalue) (kw1 kw2 : kwargs_t) :
  List.NoDup (map fst kw1) ->
  Permutation kw1 kw2 ->
  Cache._get_cache_key args kw1 = Cache._get_cache_key args kw2.
Proof.
  intros Hnd Hp. unfold Cache._get_cache_key, Cache.key_str.
  by rewrite (sorted_order_independent kw1 kw2).
Qed.

End KeyEncoder.

(** Lengths: what tells a positional argument from a keyword argument. *)

Lemma length_app_string (s1 s2 : string) :
  String.length (s1 +:+ s2) = (String.length s1 + String.length s2)%nat.
Proof. induction s1; simpl; [done|by f_equal]. Qed.

Lemma app_string_cancel_r (s1 s2 t : string) : s1 +:+ t = s2 +:+ t -> s1 = s2.
Proof.
  revert s2. induction s1 as [|a s1 IH]; intros [|b s2] H.
  - done.
  - apply (f_equal String.length) in H.
    rewrite !length_app_string in H. simpl in H. lia.
  - apply (f_equal String.length) in H.
    rewrite !length_app_string in H. simpl in H. lia.
  - change (String a (s1 +:+ t) = String b (s2 +:+ t)) in H.
    injection H as -> H. f_equal. by apply IH.
Qed.

Lemma total_length_app l1 l2 :
  total_length (l1 ++ l2) = (total_length l1 + total_length l2)%nat.
Proof. induction l1 as [|s l1 IH]; simpl; [done|]. rewrite IH. lia. Qed.

Lemma total_length_perm {A} (f : A -> string) (l1 l2 : list A) :
  Permutation l1 l2 -> total_length (map f l1) = total_length (map f l2).
Proof. induction 1; simpl; lia. Qed.

Lemma length_concat (sep : string) (l : list string) :
  String.length (String.concat sep l) =
  (total_length l + String.length sep * pred (List.length l))%nat.
Proof.
  induction l as [|s l IH]; simpl; [lia|].
  destruct l as [|s' l]; [simpl; lia|].
  rewrite !length_app_string, IH. simpl. lia.
Qed.

Section KeyStrings.
Context {rt : Runtime}.

Lemma length_key_str (args : list pyvalue) (kwargs : kwargs_t) :
  String.length (Cache.key_str args kwargs) =
  (total_length (map py_str args) + total_length (map kw_part kwargs)
   + pred (List.length args + List.length kwargs))%nat.
Proof.
  unfold Cache.key_str. rewrite length_concat, total_length_app.
  rewrite length_app, !length_map.
  rewrite (Permutation_length (sorted_perm kwargs)).
  change (fun kv : string * pyvalue => fst kv +:+ "=" +:+ py_str kv.2) with kw_part.
  rewrite (total_length_perm kw_part _ _ (sorted_perm kwargs)).
  simpl. lia.
Qed.

(** C9.  The encoder tells how an argument is passed.  Passed by
    position, [v] contributes the part [str(v)]; passed as [name=v] it
    contributes [name=str(v)].  The canonical strings of the two calls
    always differ (the second is longer), so the two keys are equal only
    if MD5 collides on them, and otherwise the calls use different
    cache files. *)
Theorem positional_and_keyword_keys_differ
    (f v : pyvalue) (name : string) (before after : list pyvalue) (kw kw' : kwargs_t) :
  Permutation kw' ((name, v) :: kw) ->
  Cache.key_str [f; v] [] = py_str f +:+ ":" +:+ py_str v
  /\ Cache.key_str [f] [(name, v)] = py_str f +:+ ":" +:+ name +:+ "=" +:+ py_str v
  /\ Cache.key_str (before ++ v :: after) kw <> Cache.key_str (before ++ after) kw'
  /\ (Cache._get_cache_key (before ++ v :: after) kw =
      Cache._get_cache_key (before ++ after) kw' ->
      exists s1 s2, s1 <> s2 /\ md5_hexdigest s1 = md5_hexdigest s2)
  /\ (forall c,
      Cache._get_cache_key (before ++ v :: after) kw <>
      Cache._get_cache_key (before ++ after) kw' ->
      Cache._get_cache_path c (Cache._get_cache_key (before ++ v :: after) kw) <>
      Cache._get_cache_path c (Cache._get_cache_key (before ++ after) kw')).
Proof.
  intros Hp.
  assert (Cache.key_str (before ++ v :: after) kw <> Cache.key_str (before ++ after) kw')
    as Hne.
  { intros Heq. apply (f_equal String.length) in Heq.
    rewrite !length_key_str in Heq.
    rewrite (total_length_perm kw_part _ _ Hp) in Heq.
    rewrite (Permutation_length Hp) in Heq.
    rewrite !map_app, !total_length_app, !length_app in Heq.
    simpl in Heq. unfold kw_part at 2 in Heq. simpl in Heq.
    rewrite !length_app_string in Heq. simpl in Heq. lia. }
  split; [done|]. split; [done|]. split; [done|]. split.
  - intros Hk. by exists (Cache.key_str (before ++ v :: after) kw),
      (Cache.key_str (before ++ after) kw').
  - intros c Hk Hpath. apply Hk. unfold Cache._get_cache_path in Hpath.
    injection Hpath as Hpath. by apply app_string_cancel_r in Hpath.
Qed.

End KeyStrings.

(** ** The store *)

Lemma Qgtb_true (a b : Q) : Qgtb a b = true <-> (b < a)%Q.
Proof.
  unfold Qgtb. rewrite negb_true_iff, <- not_true_iff_false, Qle_bool_iff.
  split; [apply Qnot_le_lt|apply Qlt_not_le].
Qed.

Lemma Qgtb_false (a b : Q) : Qgtb a b = false <-> (a <= b)%Q.
Proof. unfold Qgtb. by rewrite negb_false_iff, Qle_bool_iff. Qed.

(** ** Clock arithmetic *)

Lemma rne_bounds (x : Q) :
  (Float.rne x = Qfloor x \/ Float.rne x = Qfloor x + 1)%Z.
Proof.
  unfold Float.rne. destruct (_ ?= _)%Q; [destruct (Z.even _)|..]; auto.
Qed.

Lemma rne_mono (x y : Q) : (x <= y)%Q -> (Float.rne x <= Float.rne y)%Z.
Proof.
  intros Hxy.
  pose proof (Qfloor_resp_le _ _ Hxy) as Hf.
  destruct (Z.eq_dec (Qfloor x) (Qfloor y)) as [Heq|Hne].
  - unfold Float.rne. rewrite <- Heq.
    destruct (Qcompare_spec (x - inject_Z (Qfloor x)) (1 # 2)) as [Hx|Hx|Hx];
      destruct (Qcompare_spec (y - inject_Z (Qfloor x)) (1 # 2)) as [Hy|Hy|Hy];
      try destruct (Z.even (Qfloor x)); try lia; exfalso; lra.
  - destruct (rne_bounds x) as [-> | ->], (rne_bounds y) as [-> | ->]; lia.
Qed.

Lemma rne_inject_Z (x : Q) (n : Z) : (x == inject_Z n)%Q -> Float.rne x = n.
Proof.
  intros Hx. unfold Float.rne. rewrite (Qfloor_comp _ _ Hx), Qfloor_Z.
  destruct (Qcompare_spec (x - inject_Z n) (1 # 2)) as [H|H|H]; [exfalso; lra|reflexivity|exfalso; lra].
Qed.

Lemma scaling_spec (fuel k : nat) (x : Q) :
  let k' := Float.scaling fuel k x in
  (k <= k' <= k + fuel)%nat
  /\ ((k' < k + fuel)%nat ->
      (inject_Z (2 ^ 52) <= Qabs x * inject_Z (Zpos (Float.pow2 k')))%Q)
  /\ (forall j, (k <= j < k')%nat ->
      (Qabs x * inject_Z (Zpos (Float.pow2 j)) < inject_Z (2 ^ 52))%Q).
Proof.
  revert k. induction fuel as [|fuel IH]; intros k; simpl.
  - split; [lia|]. split; intros; lia.
  - destruct (Qle_bool _ _) eqn:Hle.
    + split; [lia|]. split; [intros _; now apply Qle_bool_iff|intros; lia].
    + destruct (IH (S k)) as (Hrange & Hstop & Hbelow).
      split; [lia|]. split; [intros; apply Hstop; lia|].
      intros j Hj. destruct (Nat.eq_dec j k) as [->|Hjk].
      * apply Qnot_le_lt. intros H. apply Qle_bool_iff in H. congruence.
      * apply Hbelow. lia.
Qed.

Lemma pow2_lt (k k' : nat) : (k < k')%nat -> (2 * Zpos (Float.pow2 k) <= Zpos (Float.pow2 k'))%Z.
Proof.
  induction 1 as [|k' _ IH]; simpl Float.pow2.
  - rewrite Pos2Z.inj_xO. lia.
  - rewrite Pos2Z.inj_xO. lia.
Qed.

Lemma pow2_le (k k' : nat) : (k <= k')%nat -> (Zpos (Float.pow2 k) <= Zpos (Float.pow2 k'))%Z.
Proof.
  intros H. destruct (Nat.eq_dec k k') as [->|Hne]; [lia|].
  pose proof (pow2_lt k k'). lia.
Qed.

Lemma pow2_pos (k : nat) : (0 < inject_Z (Zpos (Float.pow2 k)))%Q.
Proof. unfold Qlt. simpl. lia. Qed.

Lemma inject_Z_le (a b : Z) : (a <= b)%Z -> (inject_Z a <= inject_Z b)%Q.
Proof. intros. now rewrite <- Zle_Qle. Qed.

(** Two values of different scalings are apart: the coarser one is at
    least 2^52 units, the finer one below 2^53 of its own units. *)
Lemma scaling_apart (x y : Q) :
  let kx := Float.scaling 1074 0 x in
  let ky := Float.scaling 1074 0 y in
  (ky < kx)%nat ->
  (Qabs x * inject_Z (Zpos (Float.pow2 kx)) < inject_Z (2 ^ 53))%Q
  /\ (inject_Z (2 ^ 52) <= Qabs y * inject_Z (Zpos (Float.pow2 ky)))%Q
  /\ (Qabs x < Qabs y)%Q.
Proof.
  intros kx ky Hk.
  destruct (scaling_spec 1074 0 x) as (Hrx & _ & Hbelow).
  destruct (scaling_spec 1074 0 y) as (Hry & Hstop & _).
  fold kx in Hrx, Hbelow. fold ky in Hry, Hstop.
  assert (Hx1 : (Qabs x * inject_Z (Zpos (Float.pow2 (kx - 1))) < inject_Z (2 ^ 52))%Q)
    by (apply Hbelow; lia).
  assert (Hy : (inject_Z (2 ^ 52) <= Qabs y * inject_Z (Zpos (Float.pow2 ky)))%Q)
    by (apply Hstop; lia).
  pose proof (Qabs_nonneg x) as Hax. pose proof (Qabs_nonneg y) as Hay.
  pose proof (pow2_pos ky) as Hpy. pose proof (pow2_pos (kx - 1)) as Hpx1.
  assert (Hp : (inject_Z (Zpos (Float.pow2 ky)) <= inject_Z (Zpos (Float.pow2 (kx - 1))))%Q)
    by (apply inject_Z_le, pow2_le; lia).
  assert (Hpx : (inject_Z (Zpos (Float.pow2 kx)) == 2 * inject_Z (Zpos (Float.pow2 (kx - 1))))%Q).
  { replace kx with (S (kx - 1)) at 1 by lia. simpl Float.pow2.
    rewrite Pos2Z.inj_xO, inject_Z_mult. reflexivity. }
  assert (H53 : (inject_Z (2 ^ 53) == 2 * inject_Z (2 ^ 52))%Q) by reflexivity.
  split; [rewrite Hpx, H53; nra|]. split; [exact Hy|].
  apply Qnot_le_lt. intros Hle. nra.
Qed.

Lemma round_mono (x y : Q) : (x <= y)%Q -> (Float.round x <= Float.round y)%Q.
Proof.
  intros Hxy. unfold Float.round.
  set (kx := Float.scaling 1074 0 x). set (ky := Float.scaling 1074 0 y).
  assert (H52 : Float.rne (inject_Z (2 ^ 52)) = (2 ^ 52)%Z) by (now apply rne_inject_Z).
  assert (H53 : Float.rne (inject_Z (2 ^ 53)) = (2 ^ 53)%Z) by (now apply rne_inject_Z).
  assert (N52 : Float.rne (inject_Z (- 2 ^ 52)) = (- 2 ^ 52)%Z) by (now apply rne_inject_Z).
  assert (N53 : Float.rne (inject_Z (- 2 ^ 53)) = (- 2 ^ 53)%Z) by (now apply rne_inject_Z).
  destruct (lt_eq_lt_dec kx ky) as [[Hlt|Heq]|Hgt].
  - destruct (scaling_apart y x Hlt) as (Hy & Hx & Habs).
    fold kx in Hx. fold ky in Hy.
    pose proof (pow2_pos kx) as Hpx. pose proof (pow2_pos ky) as Hpy.
    assert (Hneg : (x < 0)%Q).
    { apply Qnot_le_lt. intros H0. rewrite (Qabs_pos x H0), (Qabs_pos y) in Habs; lra. }
    rewrite (Qabs_neg x) in Hx by lra.
    assert (Ha : (Float.rne (x * inject_Z (Zpos (Float.pow2 kx))) <= - 2 ^ 52)%Z).
    { rewrite <- N52. apply rne_mono. rewrite inject_Z_opp. lra. }
    assert (Hb : (- 2 ^ 53 <= Float.rne (y * inject_Z (Zpos (Float.pow2 ky))))%Z).
    { rewrite <- N53. apply rne_mono. rewrite inject_Z_opp.
      pose proof (Qle_Qabs (- y)) as Hy'. rewrite Qabs_opp in Hy'. nra. }
    pose proof (pow2_lt kx ky Hlt). unfold Qle. simpl. nia.
  - rewrite <- Heq. unfold Qle. simpl.
    apply Z.mul_le_mono_nonneg_r; [lia|]. apply rne_mono.
    pose proof (pow2_pos kx). nra.
  - destruct (scaling_apart x y Hgt) as (Hx & Hy & Habs).
    fold kx in Hx. fold ky in Hy.
    pose proof (pow2_pos kx) as Hpx. pose proof (pow2_pos ky) as Hpy.
    assert (Hpos : (0 < y)%Q).
    { apply Qnot_le_lt. intros H0. rewrite (Qabs_neg y H0), (Qabs_neg x) in Habs; lra. }
    rewrite (Qabs_pos y) in Hy by lra.
    assert (Hb : (2 ^ 52 <= Float.rne (y * inject_Z (Zpos (Float.pow2 ky))))%Z).
    { rewrite <- H52. now apply rne_mono. }
    assert (Ha : (Float.rne (x * inject_Z (Zpos (Float.pow2 kx))) <= 2 ^ 53)%Z).
    { rewrite <- H53. apply rne_mono. pose proof (Qle_Qabs x). nra. }
    pose proof (pow2_lt ky kx Hgt). unfold Qle. simpl. nia.
Qed.

Lemma round_inject_Z (n : Z) : (Float.round (inject_Z n) == inject_Z n)%Q.
Proof.
  unfold Float.round. set (k := Float.scaling 1074 0 (inject_Z n)).
  rewrite (rne_inject_Z _ (n * Zpos (Float.pow2 k))) by (now rewrite inject_Z_mult).
  unfold Qeq. simpl. lia.
Qed.

Lemma round_comp (x y : Q) : (x == y)%Q -> (Float.round x == Float.round y)%Q.
Proof. intros H. apply Qle_antisym; apply round_mono; lra. Qed.

(** An entry whose exact age is within the ttl is fresh for the code. *)
Lemma fresh_exact (a b : Q) (T : Z) :
  (a - b <= inject_Z T)%Q -> Qgtb (Float.sub a b) (inject_Z T) = false.
Proof.
  intros H. apply Qgtb_false. unfold Float.sub.
  rewrite <- (round_inject_Z T). by apply round_mono.
Qed.

(** An entry whose exact age is a second or more above the ttl is
    expired for the code. *)
Lemma stale_exact (a b : Q) (T : Z) :
  (inject_Z T + 1 <= a - b)%Q -> Qgtb (Float.sub a b) (inject_Z T) = true.
Proof.
  intros H. apply Qgtb_true. unfold Float.sub.
  assert (inject_Z (T + 1) <= Float.round (a - b))%Q as Hle.
  { rewrite <- (round_inject_Z (T + 1)). apply round_mono.
    rewrite inject_Z_plus. exact H. }
  rewrite inject_Z_plus in Hle. change (inject_Z 1) with 1%Q in Hle. lra.
Qed.

(** The age the code computes grows with the clock. *)
Lemma sub_mono (a a' b : Q) : (a <= a')%Q -> (Float.sub a b <= Float.sub a' b)%Q.
Proof. intros H. unfold Float.sub. apply round_mono. lra. Qed.

Lemma sub_diag (a : Q) : (Float.sub a a == 0)%Q.
Proof.
  unfold Float.sub. apply Qeq_trans with (Float.round (inject_Z 0)).
  - apply round_comp. change (inject_Z 0) with 0%Q. lra.
  - apply (round_inject_Z 0).
Qed.


Section Store.
Context {rt : Runtime}.

(** What [get] answers, by cases on the file. *)
Lemma get_absent (c : Cache.t) (now : Q) (key : string) (w : world) :
  files w !! Cache._get_cache_path c key = None ->
  Cache.get c now key w = (Ret (false, PNone), w).
Proof.
  intros H. unfold Cache.get, bind, path_exists. rewrite H.
  rewrite bool_decide_eq_false_2; [done|]. by intros [? ?].
Qed.

Lemma get_present (c : Cache.t) (now : Q) (key : string) (w : world) (f : file) :
  files w !! Cache._get_cache_path c key = Some f ->
  Cache.get c now key w =
  if Qgtb (Float.sub now (st_mtime f)) (inject_Z (Cache.ttl c)) then (Ret (false, PNone), w)
  else match pickle_load (content f) with
       | Ret v => (Ret (true, v), w)
       | Raise e =>
           if issubclass e PickleError || issubclass e EOFError
           then (Ret (false, PNone), w)
           else (Raise e, w)
       end.
Proof.
  intros H. unfold Cache.get, bind, path_exists, stat_mtime. rewrite H.
  rewrite bool_decide_eq_true_2 by eauto. simpl. rewrite H.
  destruct (Qgtb _ _); [done|].
  unfold try_except, bind, open_rb, lift, ret. rewrite H.
  destruct (pickle_load (content f)) as [v|e]; [done|].
  simpl. by rewrite orb_false_r.
Qed.

(** Reading never changes the world. *)
Lemma get_reads_only (c : Cache.t) (now : Q) (key : string) (w : world) :
  snd (Cache.get c now key w) = w.
Proof.
  destruct (files w !! Cache._get_cache_path c key) as [f|] eqn:H.
  - rewrite (get_present _ _ _ _ _ H).
    destruct (Qgtb _ _); [done|]. destruct (pickle_load _) as [|e]; [done|].
    by destruct (_ || _).
  - by rewrite (get_absent _ _ _ _ H).
Qed.

(** What [set] leaves behind. *)
Lemma set_spec (c : Cache.t) (now : Q) (key : string) (v : pyvalue) (w : world) :
  Cache.set c now key v w =
  match pickle_dumps v with
  | Ret data =>
      (Ret tt, set_files (<[Cache._get_cache_path c key := File now data]> (files w)) w)
  | Raise e =>
      (Raise e, set_files (<[Cache._get_cache_path c key := File now []]> (files w)) w)
  end.
Proof.
  unfold Cache.set, bind, open_wb, lift, write_close.
  destruct (pickle_dumps v); [|done].
  unfold set_files. simpl. by rewrite insert_insert_eq.
Qed.

Lemma set_ok_inv (c : Cache.t) (now : Q) (key : string) (v : pyvalue) (w w' : world) :
  Cache.set c now key v w = (Ret tt, w') ->
  exists data, pickle_dumps v = Ret data /\
    w' = set_files (<[Cache._get_cache_path c key := File now data]> (files w)) w.
Proof.
  rewrite set_spec. destruct (pickle_dumps v) as [data|]; [|done].
  intros [= <-]. eauto.
Qed.

Lemma get_after_set (c : Cache.t) (key : string) (v : pyvalue) (data : list byte)
    (t0 now : Q) (w : world) :
  pickle_contract rt ->
  pickle_dumps v = Ret data ->
  let w' := set_files (<[Cache._get_cache_path c key := File t0 data]> (files w)) w in
  Cache.get c now key w' =
  if Qgtb (Float.sub now t0) (inject_Z (Cache.ttl c)) then (Ret (false, PNone), w')
  else (Ret (true, v), w').
Proof.
  intros Hpickle Hdata w'.
  assert (files w' !! Cache._get_cache_path c key = Some (File t0 data)) as Hfile
    by (simpl; apply lookup_insert_eq).
  rewrite (get_present _ _ _ _ _ Hfile). simpl.
  by rewrite (Hpickle _ _ Hdata).
Qed.

(** C2, as the code has it.  TTL expiry is decided on the difference
    of two doubles.  After [set] wrote [key] at time [t0] in a store
    with ttl [T], and for a reading [now] less than [2^53] seconds from
    [t0], [get] at [now] is a miss exactly when the double [now - t0] is
    greater than [T], and a hit with the value written otherwise.  So it
    is a hit for every [now <= t0 + T], in particular on [[t0, t0 + T]],
    and a miss for every [now >= t0 + T + 1]; a reading above [t0 + T]
    by less than the rounding of the difference is still a hit.  The
    answer is computed from the clock passed to each read, and reading
    leaves the store as it is. *)
Theorem ttl_expiry (c : Cache.t) (key : string) (v : pyvalue) (t0 now : Q) (w w' : world) :
  pickle_contract rt ->
  Cache.set c t0 key v w = (Ret tt, w') ->
  (Qabs (now - t0) < inject_Z (2 ^ 53))%Q ->
  ((Float.sub now t0 <= inject_Z (Cache.ttl c))%Q ->
     Cache.get c now key w' = (Ret (true, v), w'))
  /\ ((inject_Z (Cache.ttl c) < Float.sub now t0)%Q ->
     Cache.get c now key w' = (Ret (false, PNone), w'))
  /\ ((now <= t0 + inject_Z (Cache.ttl c))%Q ->
     Cache.get c now key w' = (Ret (true, v), w'))
  /\ ((t0 + inject_Z (Cache.ttl c) + 1 <= now)%Q ->
     Cache.get c now key w' = (Ret (false, PNone), w')).
Proof.
  intros Hpickle (data & Hdata & ->)%set_ok_inv _.
  rewrite (get_after_set c key v data t0 now w Hpickle Hdata).
  split; [|split; [|split]]; intros Hnow.
  - by rewrite (proj2 (Qgtb_false _ _)).
  - by rewrite (proj2 (Qgtb_true _ _)).
  - by rewrite fresh_exact by lra.
  - by rewrite stale_exact by lra.
Qed.

(** C6, as the code has it.  On a store whose ttl is not negative,
    [set(k, v)] followed at once by [get(k)] returns [(True, v)], for
    every key and every value that pickles (a materialized sequence is a
    list, and pickles when its members do). *)
Theorem set_then_get (c : Cache.t) (key : string) (v : pyvalue) (now : Q) (w w' : world) :
  pickle_contract rt ->
  (0 <= Cache.ttl c)%Z ->
  Cache.set c now key v w = (Ret tt, w') ->
  Cache.get c now key w' = (Ret (true, v), w').
Proof.
  intros Hpickle Httl (data & Hdata & ->)%set_ok_inv.
  rewrite (get_after_set c key v data now now w Hpickle Hdata).
  rewrite (proj2 (Qgtb_false _ _)); [done|].
  assert (0 <= inject_Z (Cache.ttl c))%Q
    by (change 0%Q with (inject_Z 0); by rewrite <- Zle_Qle).
  pose proof (sub_diag now). lra.
Qed.

End Store.

Section Sweep.
Context {rt : Runtime}.

Lemma sweep_loop (c : Cache.t) (time_time : string * string -> Q)
    (ps : list (string * string)) (w : world) :
  NoDup ps ->
  (forall p, p ∈ ps -> is_Some (files w !! p)) ->
  exists w',
    for_each ps (sweep_one c time_time) w = (Ret tt, w')
    /\ events w' = events w
    /\ forall p,
        files w' !! p =
        match files w !! p with
        | Some f =>
            if swept c time_time (fun q => bool_decide (q ∈ ps)) p f then None else Some f
        | None => None
        end.
Proof.
  revert w. induction ps as [|p ps IH]; intros w Hnd Hin.
  - exists w. split; [done|]. split; [done|]. intros p.
    destruct (files w !! p); [|done]. unfold swept.
    case_bool_decide as Hnil; [by apply not_elem_of_nil in Hnil|done].
  - apply NoDup_cons in Hnd as [Hp Hnd].
    destruct (Hin p (list_elem_of_here _ _)) as [f Hf].
    set (w1 := if Qgtb (Float.sub (time_time p) (st_mtime f)) (inject_Z (Cache.ttl c))
               then set_files (delete p (files w)) w else w).
    assert (sweep_one c time_time p w = (Ret tt, w1)) as Hone.
    { unfold sweep_one, bind, stat_mtime, unlink, w1. rewrite Hf.
      destruct (Qgtb _ _); [|done]. by rewrite Hf. }
    assert (forall q, q <> p -> files w1 !! q = files w !! q) as Hother.
    { intros q Hq. unfold w1. destruct (Qgtb _ _); [|done].
      simpl. by rewrite lookup_delete_ne. }
    destruct (IH w1 Hnd) as (w' & Hrun & Hev & Hfiles).
    { intros q Hq. rewrite Hother; [apply Hin; by right|]. by intros ->. }
    exists w'. split; [|split].
    + simpl. unfold bind. by rewrite Hone.
    + rewrite Hev. unfold w1. by destruct (Qgtb _ _).
    + intros q. rewrite Hfiles. unfold swept.
      destruct (decide (q = p)) as [->|Hq].
      * rewrite (bool_decide_eq_false_2 (p ∈ ps)) by done.
        rewrite (bool_decide_eq_true_2 (p ∈ p :: ps)) by (by left).
        rewrite Hf. simpl. unfold w1.
        destruct (Qgtb (Float.sub (time_time p) (st_mtime f)) _) eqn:E; simpl.
        -- by rewrite lookup_delete_eq.
        -- by rewrite Hf.
      * rewrite Hother by done.
        destruct (files w !! q) as [g|]; [|done].
        assert (bool_decide (q ∈ p :: ps) = bool_decide (q ∈ ps)) as ->; [|done].
        apply bool_decide_ext. rewrite elem_of_cons.
        split; [intros [?|?]; [congruence|done]|by right].
Qed.

Lemma glob_pickle_spec (directory : string) (w : world) :
  exists ps,
    glob_pickle directory w = (Ret ps, w)
    /\ NoDup ps
    /\ forall p, p ∈ ps <-> is_Some (files w !! p) /\ in_glob_pickle directory p = true.
Proof.
  eexists. split; [reflexivity|]. split.
  - apply NoDup_ListNoDup, List.NoDup_filter, NoDup_ListNoDup.
    apply (NoDup_fst_map_to_list (files w)).
  - intros p. rewrite list_elem_of_In, List.filter_In, <- list_elem_of_In.
    assert (p ∈ map fst (map_to_list (files w)) <-> is_Some (files w !! p)) as ->; [|done].
    change (map fst (map_to_list (files w))) with ((map_to_list (files w)).*1).
    rewrite list_elem_of_fmap. split.
    + intros ([q f] & -> & Hqf). apply elem_of_map_to_list in Hqf. eauto.
    + intros [f Hf]. exists (p, f). split; [done|]. by apply elem_of_map_to_list.
Qed.

(** C7, as the code has it.  The age of a file is the double
    difference of the clock reading taken for it and its modification
    time.  With every file less than [2^53] seconds from the reading
    taken for it, [clear_expired] returns normally, removes exactly the
    [*.pickle] files of the cache directory whose age is greater than
    the ttl, and leaves every other file where it is with the content
    and modification time it had.  So a file whose exact age is within
    the ttl stays, a listed file whose exact age is a second or more
    above the ttl goes; one that is older than the ttl by less than the
    rounding of the difference stays. *)
Theorem clear_expired_removes_exactly_the_expired
    (c : Cache.t) (time_time : string * string -> Q) (w : world) :
  (forall p f, files w !! p = Some f ->
     (Qabs (time_time p - st_mtime f) < inject_Z (2 ^ 53))%Q) ->
  exists w',
    Cache.clear_expired c time_time w = (Ret tt, w')
    /\ events w' = events w
    /\ (forall p,
        files w' !! p =
        match files w !! p with
        | Some f =>
            if in_glob_pickle (Cache.cache_dir c) p
               && Qgtb (Float.sub (time_time p) (st_mtime f)) (inject_Z (Cache.ttl c))
            then None
            else Some f
        | None => None
        end)
    /\ (forall p f,
        files w !! p = Some f ->
        (time_time p - st_mtime f <= inject_Z (Cache.ttl c))%Q ->
        files w' !! p = Some f)
    /\ (forall p f,
        files w !! p = Some f ->
        in_glob_pickle (Cache.cache_dir c) p = true ->
        (inject_Z (Cache.ttl c) + 1 <= time_time p - st_mtime f)%Q ->
        files w' !! p = None).
Proof.
  intros _.
  destruct (glob_pickle_spec (Cache.cache_dir c) w) as (ps & Hglob & Hnd & Hps).
  destruct (sweep_loop c time_time ps w Hnd) as (w' & Hrun & Hev & Hfiles).
  { intros p Hp. by apply Hps in Hp as [? _]. }
  assert (forall p,
    files w' !! p =
    match files w !! p with
    | Some f =>
        if in_glob_pickle (Cache.cache_dir c) p
           && Qgtb (Float.sub (time_time p) (st_mtime f)) (inject_Z (Cache.ttl c))
        then None
        else Some f
    | None => None
    end) as Hspec.
  { intros p. rewrite Hfiles. destruct (files w !! p) as [f|] eqn:Hf; [|done].
    unfold swept.
    assert (bool_decide (p ∈ ps) = in_glob_pickle (Cache.cache_dir c) p) as ->; [|done].
    destruct (in_glob_pickle (Cache.cache_dir c) p) eqn:E.
    + apply bool_decide_eq_true_2, Hps. eauto.
    + apply bool_decide_eq_false_2. intros [_ ?]%Hps. congruence. }
  exists w'. split; [|split; [done|split; [done|split]]].
  - unfold Cache.clear_expired, bind. rewrite Hglob. exact Hrun.
  - intros p f Hf Hage. rewrite Hspec, Hf, fresh_exact by done.
    by rewrite andb_false_r.
  - intros p f Hf Hlisted Hage. by rewrite Hspec, Hf, Hlisted, stale_exact.
Qed.

End Sweep.

(** ** The memoizer *)

Lemma dict_get_del (k : string) (d : kwargs_t) : dict_get k (dict_del k d) = None.
Proof.
  induction d as [|[k' v] d IH]; simpl; [done|].
  destruct (String.eqb k k') eqn:E; [done|]. simpl. by rewrite E.
Qed.

Lemma dict_del_absent (k : string) (d : kwargs_t) : dict_get k d = None -> dict_del k d = d.
Proof.
  induction d as [|[k' v] d IH]; simpl; [done|].
  destruct (String.eqb k k'); [done|]. intros H. by rewrite IH.
Qed.

Section Memoizer.
Context {rt : Runtime}.

Lemma compute_spec cache cache_key func args kwargs later (w : world) :
  compute cache cache_key func args kwargs later w =
  let w1 := add_event (Invoked args kwargs) w in
  match func args kwargs with
  | Raise e => (Raise e, w1)
  | Ret r =>
      match materialize r with
      | Raise e => (Raise e, w1)
      | Ret r' =>
          match pickle_dumps r' with
          | Ret data =>
              (Ret r', set_files (<[Cache._get_cache_path cache cache_key := File later data]> (files w)) w1)
          | Raise e =>
              (Raise e, set_files (<[Cache._get_cache_path cache cache_key := File later []]> (files w)) w1)
          end
      end
  end.
Proof.
  unfold compute, call, bind, emit, lift. simpl.
  destruct (func args kwargs) as [r|e]; [|done].
  destruct (materialize r) as [r'|e]; [|done].
  rewrite set_spec. by destruct (pickle_dumps r').
Qed.

Lemma compute_events cache cache_key func args kwargs later (w : world) :
  events (snd (compute cache cache_key func args kwargs later w)) =
  events w ++ [Invoked args kwargs].
Proof.
  rewrite compute_spec. simpl.
  destruct (func args kwargs) as [r|e]; [|done].
  destruct (materialize r) as [r'|e]; [|done].
  by destruct (pickle_dumps r').
Qed.


(** The wrapper with the flag set: no lookup. *)
Lemma wrapper_forced cache name func args kwargs now later (w : world) flag :
  dict_get "force_refresh" kwargs = Some flag ->
  truthy flag = true ->
  wrapper cache name func args kwargs now later w =
  compute cache
    (Cache._get_cache_key (PStr name :: args) (dict_del "force_refresh" kwargs))
    func args (dict_del "force_refresh" kwargs) later w.
Proof.
  intros Hget Hflag. unfold wrapper, dict_pop. rewrite Hget, Hflag. simpl.
  unfold bind at 1. unfold ret at 1. done.
Qed.

(** The wrapper without the flag, or with a false one: lookup first. *)
Lemma wrapper_lookup cache name func args kwargs now later (w : world) :
  truthy (fst (dict_pop "force_refresh" (PBool false) kwargs)) = false ->
  let kwargs' := dict_del "force_refresh" kwargs in
  let cache_key := Cache._get_cache_key (PStr name :: args) kwargs' in
  wrapper cache name func args kwargs now later w =
  match Cache.get cache now cache_key w with
  | (Ret (true, value), _) =>
      (Ret value,
       if first_arg_verbose args
       then add_event (Printed ("Using cached data for " +:+ name)) w
       else w)
  | (Ret (false, _), _) => compute cache cache_key func args kwargs' later w
  | (Raise e, _) => (Raise e, w)
  end.
Proof.
  intros Hflag kwargs' cache_key. unfold wrapper.
  unfold dict_pop in *. simpl in Hflag. rewrite Hflag. simpl.
  fold kwargs'. fold cache_key.
  pose proof (get_reads_only cache now cache_key w) as Hw.
  unfold bind at 1. unfold bind at 1.
  destruct (Cache.get cache now cache_key w) as [[[hit value]|e] w0]; simpl in Hw; subst w0.
  - destruct hit; simpl.
    + unfold bind, emit, ret. by destruct (first_arg_verbose args).
    + done.
  - done.
Qed.

End Memoizer.

Section MemoizerClaims.
Context {rt : Runtime}.



(** What a call that invoked the callable and returned has written. *)
Lemma wrapper_invoked_inv
    (cache : Cache.t) (name : string) (func : callable)
    (args : list pyvalue) (kwargs : kwargs_t) (now later : Q) (w w1 : world) (v : pyvalue) :
  let kwargs' := dict_del "force_refresh" kwargs in
  let cache_key := Cache._get_cache_key (PStr name :: args) kwargs' in
  wrapper cache name func args kwargs now later w = (Ret v, w1) ->
  events w1 = events w ++ [Invoked args kwargs'] ->
  exists data,
    pickle_dumps v = Ret data
    /\ files w1 = <[Cache._get_cache_path cache cache_key := File later data]> (files w).
Proof.
  intros kwargs' cache_key Hrun Hev.
  assert (compute cache cache_key func args kwargs' later w = (Ret v, w1) ->
          exists data, pickle_dumps v = Ret data
            /\ files w1 = <[Cache._get_cache_path cache cache_key := File later data]> (files w))
    as Hcompute.
  { rewrite compute_spec. simpl.
    destruct (func args kwargs') as [r|]; [|done].
    destruct (materialize r) as [r'|]; [|done].
    destruct (pickle_dumps r') as [data|] eqn:Hd; [|done].
    intros [= <- <-]. eauto. }
  destruct (truthy (fst (dict_pop "force_refresh" (PBool false) kwargs))) eqn:Hflag.
  - apply Hcompute. rewrite <- Hrun. symmetry.
    unfold dict_pop in Hflag. simpl in Hflag.
    destruct (dict_get "force_refresh" kwargs) as [flag|] eqn:Hget; [|done].
    by apply wrapper_forced with flag.
  - rewrite (wrapper_lookup _ _ _ _ _ _ _ _ Hflag) in Hrun.
    fold kwargs' in Hrun. fold cache_key in Hrun.
    destruct (Cache.get cache now cache_key w) as [[[[|] value]|e'] w0]; simpl in Hrun.
    + exfalso. injection Hrun as _ <-.
      destruct (first_arg_verbose args); simpl in Hev.
      * by apply app_inv_head in Hev.
      * rewrite <- (app_nil_r (events w)) in Hev at 1. by apply app_inv_head in Hev.
    + by apply Hcompute.
    + done.
Qed.

(** C10.  The function identity in the key is the bare name.  Let a
    wrapped callable [f1] named [name] be invoked and return [v] through
    its wrapper.  A different callable [f2] wrapped under the same name
    and cache directory, called with the same arguments while the entry
    is fresh for its ttl, is not invoked: its wrapper returns [v], the
    result of [f1].  Called with [force_refresh], [f2] replaces the
    entry [f1] wrote with its own result. *)
Theorem same_name_shares_entry
    (c1 c2 : Cache.t) (name : string) (f1 f2 : callable)
    (args : list pyvalue) (kwargs : kwargs_t)
    (now1 later1 now2 later2 : Q) (w w1 : world) (v : pyvalue) :
  pickle_contract rt ->
  Cache.cache_dir c1 = Cache.cache_dir c2 ->
  dict_get "force_refresh" kwargs = None ->
  wrapper c1 name f1 args kwargs now1 later1 w = (Ret v, w1) ->
  events w1 = events w ++ [Invoked args kwargs] ->
  (now2 - later1 <= inject_Z (Cache.ttl c2))%Q ->
  let path1 := Cache._get_cache_path c1 (Cache._get_cache_key (PStr name :: args) kwargs) in
  let run2 := wrapper c2 name f2 args kwargs now2 later2 w1 in
  let forced2 :=
    wrapper c2 name f2 args (("force_refresh", PBool true) :: kwargs) now2 later2 w1 in
  fst run2 = Ret v
  /\ files (snd run2) = files w1
  /\ ~ In (Invoked args kwargs) (skipn (List.length (events w1)) (events (snd run2)))
  /\ (forall r r' data,
        f2 args kwargs = Ret r ->
        materialize r = Ret r' ->
        pickle_dumps r' = Ret data ->
        fst forced2 = Ret r'
        /\ files (snd forced2) !! path1 = Some (File later2 data)).
Proof.
  intros Hpickle Hdir Hnoflag Hrun1 Hev Hfresh path1 run2 forced2.
  pose proof (dict_del_absent _ _ Hnoflag) as Hdel.
  destruct (wrapper_invoked_inv c1 name f1 args kwargs now1 later1 w w1 v Hrun1)
    as (data1 & Hdata1 & Hfiles1); [by rewrite Hdel|].
  rewrite Hdel in Hfiles1.
  assert (Cache._get_cache_path c2 (Cache._get_cache_key (PStr name :: args) kwargs) = path1)
    as Hpath by (unfold path1, Cache._get_cache_path; by rewrite Hdir).
  assert (Cache.get c2 now2 (Cache._get_cache_key (PStr name :: args) kwargs) w1
          = (Ret (true, v), w1)) as Hhit.
  { assert (files w1 !! Cache._get_cache_path c2
              (Cache._get_cache_key (PStr name :: args) kwargs) = Some (File later1 data1))
      as Hfile by (rewrite Hpath, Hfiles1; apply lookup_insert_eq).
    rewrite (get_present _ _ _ _ _ Hfile). simpl.
    rewrite fresh_exact by done.
    by rewrite (Hpickle _ _ Hdata1). }
  assert (run2 = (Ret v, if first_arg_verbose args
                         then add_event (Printed ("Using cached data for " +:+ name)) w1
                         else w1)) as ->.
  { unfold run2. rewrite wrapper_lookup by (unfold dict_pop; simpl; by rewrite Hnoflag).
    by rewrite Hdel, Hhit. }
  split; [done|]. split; [by destruct (first_arg_verbose args)|]. split.
  - destruct (first_arg_verbose args); simpl.
    + rewrite skipn_app, skipn_all, Nat.sub_diag. simpl. by intros [?|[]].
    + rewrite skipn_all. intros [].
  - intros r r' data Hr Hr' Hdata.
    assert (forced2 = compute c2 (Cache._get_cache_key (PStr name :: args) kwargs)
                        f2 args kwargs later2 w1) as ->.
    { unfold forced2. rewrite (wrapper_forced _ _ _ _ _ _ _ _ (PBool true)); [|done..].
      simpl. by rewrite Hdel. }
    rewrite compute_spec, Hr, Hr', Hdata. simpl.
    split; [done|]. rewrite Hpath. apply lookup_insert_eq.
Qed.

End MemoizerClaims.

(** ** The pickler and the unpickler agree *)

Lemma byte_to_of_Z (z : Z) :
  (0 <= z < 256)%Z -> Pickle.byte_to_Z (Pickle.byte_of_Z z) = z.
Proof.
  intros Hz. unfold Pickle.byte_to_Z, Pickle.byte_of_Z.
  rewrite ascii_of_byte_of_ascii, N_ascii_embedding by lia. lia.
Qed.

Lemma length_le_encode (n : nat) (z : Z) : List.length (Pickle.le_encode n z) = n.
Proof. revert z. induction n as [|n IH]; intros z; simpl; [done|by rewrite IH]. Qed.

Lemma le_decode_encode (n : nat) (z : Z) :
  Pickle.le_decode (Pickle.le_encode n z) = (z mod 256 ^ Z.of_nat n)%Z.
Proof.
  revert z. induction n as [|n IH]; intros z.
  - simpl. by rewrite Z.mod_1_r.
  - cbn [Pickle.le_encode Pickle.le_decode].
    rewrite byte_to_of_Z by (apply Z.mod_pos_bound; lia).
    rewrite IH, Nat2Z.inj_succ, Z.pow_succ_r by lia.
    rewrite Z.rem_mul_r by lia. done.
Qed.

Lemma pow_256 (k : nat) : (256 ^ Z.of_nat k = 2 ^ (8 * Z.of_nat k))%Z.
Proof. rewrite Z.pow_mul_r by lia. done. Qed.

Lemma signed_mod (k : nat) (n : Z) :
  (0 < k)%nat ->
  (- 2 ^ (8 * Z.of_nat k - 1) <= n < 2 ^ (8 * Z.of_nat k - 1))%Z ->
  Pickle.signed k (n mod 2 ^ (8 * Z.of_nat k)) = n.
Proof.
  intros Hk Hn. unfold Pickle.signed.
  set (h := (2 ^ (8 * Z.of_nat k - 1))%Z) in *.
  assert (2 ^ (8 * Z.of_nat k) = 2 * h)%Z as ->.
  { unfold h. rewrite <- Z.pow_succ_r by lia. f_equal. lia. }
  assert (0 < h)%Z by (apply Z.pow_pos_nonneg; lia).
  destruct (Z.neg_nonneg_cases n) as [Hneg|Hpos].
  - rewrite <- (Z_mod_plus_full n 1 (2 * h)).
    rewrite Z.mod_small by lia.
    destruct (Z.ltb_spec (n + 1 * (2 * h)) h); lia.
  - rewrite Z.mod_small by lia.
    destruct (Z.ltb_spec n h); lia.
Qed.

Lemma bit_length_bound (n : Z) :
  (0 <= Pickle.bit_length n)%Z /\ (- 2 ^ Pickle.bit_length n < n < 2 ^ Pickle.bit_length n)%Z.
Proof.
  unfold Pickle.bit_length. destruct (Z.eqb_spec n 0) as [->|Hn]; [simpl; lia|].
  pose proof (Z.log2_nonneg (Z.abs n)).
  destruct (Z.log2_spec (Z.abs n)) as [_ Hlt]; [lia|].
  replace (Z.succ (Z.log2 (Z.abs n))) with (Z.log2 (Z.abs n) + 1)%Z in Hlt by lia.
  lia.
Qed.

Lemma decode_encode_long (n : Z) : Pickle.decode_long (Pickle.encode_long n) = n.
Proof.
  unfold Pickle.encode_long.
  destruct (bit_length_bound n) as [Hbl Hn].
  set (bl := Pickle.bit_length n) in *.
  set (k := Z.to_nat (bl / 8 + 1)).
  assert (Z.of_nat k = bl / 8 + 1)%Z as Hk.
  { unfold k. rewrite Z2Nat.id; [done|]. pose proof (Z.div_pos bl 8). lia. }
  assert (bl <= 8 * Z.of_nat k - 1)%Z as Hle.
  { rewrite Hk. pose proof (Z.div_mod bl 8). pose proof (Z.mod_pos_bound bl 8). lia. }
  assert (0 < k)%nat as Hpos by (pose proof (Z.div_pos bl 8); lia).
  assert (Pickle.decode_long (Pickle.le_encode k (n mod 2 ^ (8 * Z.of_nat k))) =
          Pickle.signed k (Pickle.le_decode (Pickle.le_encode k (n mod 2 ^ (8 * Z.of_nat k)))))
    as ->.
  { unfold Pickle.decode_long. rewrite length_le_encode.
    destruct k; [lia|done]. }
  rewrite le_decode_encode, pow_256, Z.mod_mod by (apply Z.pow_nonzero; lia).
  apply signed_mod; [done|].
  assert (2 ^ bl <= 2 ^ (8 * Z.of_nat k - 1))%Z by (apply Z.pow_le_mono_r; lia).
  lia.
Qed.

Lemma with_bytes_app (a rest : list byte)
    (k : list byte -> list byte -> Pickle.outcome) :
  Pickle.with_bytes (Z.of_nat (List.length a)) (a ++ rest) k = k a rest.
Proof.
  unfold Pickle.with_bytes.
  rewrite (proj2 (Z.leb_le _ _)) by (rewrite length_app; lia).
  by rewrite Nat2Z.id, take_app_length, drop_app_length.
Qed.

Lemma with_bytes_int (n : nat) (size z : Z) (rest : list byte)
    (k : list byte -> list byte -> Pickle.outcome) :
  size = Z.of_nat n ->
  Pickle.with_bytes size (Pickle.le_encode n z ++ rest) k =
  k (Pickle.le_encode n z) rest.
Proof. intros ->. rewrite <- (length_le_encode n z) at 1. apply with_bytes_app. Qed.

Lemma advances_refl i s : advances i s i s.
Proof. intros n Hn. eauto. Qed.

Lemma advances_trans i1 s1 i2 s2 i3 s3 :
  advances i1 s1 i2 s2 -> advances i2 s2 i3 s3 -> advances i1 s1 i3 s3.
Proof.
  intros H12 H23 n Hn.
  destruct (H12 n Hn) as (n' & Hn' & ->). apply (H23 n' Hn').
Qed.

Lemma advances_step i s i' s' :
  Pickle.step i s = Pickle.Continue i' s' ->
  (List.length i' < List.length i)%nat ->
  advances i s i' s'.
Proof.
  intros Hstep Hlen n Hn. destruct n as [|n]; [lia|].
  exists n. split; [lia|]. simpl. by rewrite Hstep.
Qed.

(** One opcode with no argument. *)
Lemma advances_op (op : byte) (rest : list byte) (s s' : list Pickle.item) :
  Pickle.step (op :: rest) s = Pickle.Continue rest s' ->
  advances (op :: rest) s rest s'.
Proof. intros H. apply advances_step; [done|simpl; lia]. Qed.

Lemma seq_res_inv (a b : res (list byte)) (c : list byte) :
  Pickle.seq_res a b = Ret c -> exists x y, a = Ret x /\ b = Ret y /\ c = x ++ y.
Proof.
  destruct a as [x|], b as [y|]; simpl; try done.
  intros [= <-]. eauto.
Qed.

Lemma save_long_advances (n : Z) (bs rest : list byte) (s : list Pickle.item) :
  Pickle.save_long n = Ret bs ->
  advances (bs ++ rest) s rest (Pickle.Val (PInt n) :: s).
Proof.
  unfold Pickle.save_long.
  destruct ((0 <=? n)%Z && (n <? 256)%Z) eqn:H1.
  { intros [= <-]. apply advances_step; [|simpl; lia].
    match goal with |- Pickle.step ?i _ = _ =>
      change i with (x4b :: Pickle.le_encode 1 n ++ rest) end.
    step_opcode. rewrite (with_bytes_int 1) by done.
    rewrite le_decode_encode. unfold Pickle.push.
    rewrite Z.mod_small by lia. done. }
  destruct ((0 <=? n)%Z && (n <? 65536)%Z) eqn:H2.
  { intros [= <-]. apply advances_step; [|simpl; lia].
    match goal with |- Pickle.step ?i _ = _ =>
      change i with (x4d :: Pickle.le_encode 2 n ++ rest) end.
    step_opcode. rewrite (with_bytes_int 2) by done.
    rewrite le_decode_encode. unfold Pickle.push.
    rewrite Z.mod_small by lia. done. }
  destruct ((- 2 ^ 31 <=? n)%Z && (n <? 2 ^ 31)%Z) eqn:H3.
  { intros [= <-]. apply advances_step; [|simpl; lia].
    match goal with |- Pickle.step ?i _ = _ =>
      change i with (x4a :: Pickle.le_encode 4 (n mod 2 ^ 32) ++ rest) end.
    step_opcode. rewrite (with_bytes_int 4) by done.
    rewrite le_decode_encode. unfold Pickle.push.
    change (256 ^ Z.of_nat 4)%Z with (2 ^ (8 * Z.of_nat 4))%Z.
    rewrite Z.mod_mod by lia.
    rewrite signed_mod; [done|lia|]. change (8 * Z.of_nat 4 - 1)%Z with 31%Z. lia. }
  destruct (Z.ltb_spec (Z.of_nat (List.length (Pickle.encode_long n))) 256) as [H4|H4].
  { intros [= <-]. apply advances_step; [|simpl; rewrite !length_app; lia].
    match goal with |- Pickle.step ?i _ = _ =>
      change i with (x8a :: Pickle.le_encode 1 (Z.of_nat (List.length (Pickle.encode_long n)))
                       ++ Pickle.encode_long n ++ rest) end.
    step_opcode. rewrite (with_bytes_int 1) by done.
    rewrite le_decode_encode, Z.mod_small by lia.
    rewrite with_bytes_app. unfold Pickle.push. by rewrite decode_encode_long. }
  destruct (Z.ltb_spec (Z.of_nat (List.length (Pickle.encode_long n))) (2 ^ 31)) as [H5|H5];
    [|done].
  intros [= <-]. apply advances_step; [|simpl; rewrite !length_app; lia].
  match goal with |- Pickle.step ?i _ = _ =>
    change i with (x8b :: Pickle.le_encode 4 (Z.of_nat (List.length (Pickle.encode_long n)))
                     ++ Pickle.encode_long n ++ rest) end.
  step_opcode. rewrite (with_bytes_int 4) by done.
  rewrite le_decode_encode.
  change (256 ^ Z.of_nat 4)%Z with (2 ^ 32)%Z.
  rewrite Z.mod_small by lia.
  assert (Pickle.signed 4 (Z.of_nat (List.length (Pickle.encode_long n)))
          = Z.of_nat (List.length (Pickle.encode_long n))) as ->.
  { unfold Pickle.signed. change (8 * Z.of_nat 4 - 1)%Z with 31%Z.
    by rewrite (proj2 (Z.ltb_lt _ _)). }
  cbv zeta. rewrite (proj2 (Z.ltb_ge _ _)) by lia.
  rewrite with_bytes_app. unfold Pickle.push. by rewrite decode_encode_long.
Qed.

Lemma load_unicode_text (s : string) (rest : list byte) (st : list Pickle.item) :
  Pickle.is_text (list_byte_of_string s) = true ->
  Pickle.load_unicode (Z.of_nat (List.length (list_byte_of_string s)))
    (list_byte_of_string s ++ rest) st =
  Pickle.Continue rest (Pickle.Val (PStr s) :: st).
Proof.
  intros Htext. unfold Pickle.load_unicode. rewrite with_bytes_app, Htext.
  unfold Pickle.push. by rewrite string_of_list_byte_of_string.
Qed.

Lemma save_str_advances (s : string) (bs rest : list byte) (st : list Pickle.item) :
  Pickle.save_str s = Ret bs ->
  advances (bs ++ rest) st rest (Pickle.Val (PStr s) :: st).
Proof.
  unfold Pickle.save_str.
  set (body := list_byte_of_string s). set (len := Z.of_nat (List.length body)).
  destruct (Pickle.is_text body) eqn:Htext; [simpl|done].
  destruct (Z.ltb_spec len 256) as [H1|H1].
  { intros [= <-]. apply advances_step; [|simpl; rewrite !length_app; lia].
    match goal with |- Pickle.step ?i _ = _ =>
      change i with (x8c :: Pickle.le_encode 1 len ++ body ++ rest) end.
    step_opcode. rewrite (with_bytes_int 1) by done.
    rewrite le_decode_encode, Z.mod_small by lia.
    by apply load_unicode_text. }
  destruct (Z.ltb_spec len (2 ^ 32)) as [H2|H2].
  { intros [= <-]. apply advances_step; [|simpl; rewrite !length_app; lia].
    match goal with |- Pickle.step ?i _ = _ =>
      change i with (x58 :: Pickle.le_encode 4 len ++ body ++ rest) end.
    step_opcode. rewrite (with_bytes_int 4) by done.
    rewrite le_decode_encode.
    change (256 ^ Z.of_nat 4)%Z with (2 ^ 32)%Z.
    rewrite Z.mod_small by lia.
    by apply load_unicode_text. }
  destruct (Z.ltb_spec len (2 ^ 63)) as [H3|H3]; [|done].
  intros [= <-]. apply advances_step; [|simpl; rewrite !length_app; lia].
  match goal with |- Pickle.step ?i _ = _ =>
    change i with (x8d :: Pickle.le_encode 8 len ++ body ++ rest) end.
  step_opcode. rewrite (with_bytes_int 8) by done.
  rewrite le_decode_encode.
  change (256 ^ Z.of_nat 8)%Z with (2 ^ 64)%Z.
  rewrite Z.mod_small by lia.
  cbv zeta. rewrite (proj2 (Z.leb_gt _ _)) by lia.
  by apply load_unicode_text.
Qed.

Lemma pushed_snoc (l : list pyvalue) (x : pyvalue) (s : list Pickle.item) :
  pushed (l ++ [x]) s = Pickle.Val x :: pushed l s.
Proof. unfold pushed. by rewrite map_app, rev_app_distr. Qed.

Lemma pushed_cons (x : pyvalue) (l : list pyvalue) (s : list Pickle.item) :
  pushed (x :: l) s = pushed l (Pickle.Val x :: s).
Proof. unfold pushed. simpl. by rewrite <- app_assoc. Qed.

Lemma pop_mark_pushed (l acc : list pyvalue) (s : list Pickle.item) :
  Pickle.pop_mark (pushed l s) acc = Pickle.pop_mark s (l ++ acc).
Proof.
  revert acc. induction l as [|x l IH] using rev_ind; intros acc; [done|].
  rewrite pushed_snoc. simpl. by rewrite IH, <- app_assoc.
Qed.

Lemma save_all_advances (l : list pyvalue) (bs rest : list byte) (st : list Pickle.item) :
  Forall loads_back l ->
  Pickle.save_all Pickle.save l = Ret bs ->
  advances (bs ++ rest) st rest (pushed l st).
Proof.
  intros Hl. revert bs st. induction Hl as [|x l Hx Hl IH]; intros bs st; simpl.
  - intros [= <-]. apply advances_refl.
  - intros (b1 & b2 & H1 & H2 & ->)%seq_res_inv.
    rewrite <- app_assoc, pushed_cons.
    eapply advances_trans; [by apply Hx|by apply IH].
Qed.

Lemma save_items_advances (d : list (pyvalue * pyvalue)) (bs rest : list byte)
    (st : list Pickle.item) :
  Forall (fun kv => loads_back (fst kv) /\ loads_back (snd kv)) d ->
  Pickle.save_items Pickle.save d = Ret bs ->
  advances (bs ++ rest) st rest (pushed (flat d) st).
Proof.
  intros Hd. revert bs st.
  induction Hd as [|[k x] d [Hk Hx] Hd IH]; intros bs st; simpl.
  - intros [= <-]. apply advances_refl.
  - intros (b1 & b23 & H1 & (b2 & b3 & H2 & H3 & ->)%seq_res_inv & ->)%seq_res_inv.
    rewrite <- !app_assoc, !pushed_cons.
    eapply advances_trans; [by apply Hk|].
    eapply advances_trans; [by apply Hx|by apply IH].
Qed.

Lemma pairs_flat (d : list (pyvalue * pyvalue)) : Pickle.pairs (flat d) = Some d.
Proof. induction d as [|[k x] d IH]; simpl; [done|]. by rewrite IH. Qed.

Lemma dict_setitem_fresh (d : list (pyvalue * pyvalue)) (k x : pyvalue) :
  existsb (fun y => Pickle.py_eq y k) (map fst d) = false ->
  Pickle.dict_setitem d k x = d ++ [(k, x)].
Proof.
  induction d as [|[k' x'] d IH]; simpl; [done|].
  intros [-> H]%orb_false_iff. by rewrite IH.
Qed.

Lemma dict_update_distinct (acc d : list (pyvalue * pyvalue)) :
  Pickle.distinct (map fst acc) (map fst d) = true ->
  Pickle.dict_update acc d = Some (acc ++ d).
Proof.
  unfold Pickle.dict_update. revert acc.
  induction d as [|[k x] d IH]; intros acc; simpl.
  - by rewrite app_nil_r.
  - intros [[-> Hfresh%negb_true_iff]%andb_true_iff Hd]%andb_true_iff.
    rewrite (dict_setitem_fresh _ _ _ Hfresh).
    rewrite IH by (by rewrite map_app). by rewrite <- app_assoc.
Qed.

Lemma set_update_distinct (acc l : list pyvalue) :
  Pickle.distinct acc l = true ->
  forallb Pickle.hashable l = true /\ fold_left Pickle.set_add l acc = acc ++ l.
Proof.
  revert acc. induction l as [|x l IH]; intros acc; simpl.
  - by rewrite app_nil_r.
  - intros [[-> Hfresh%negb_true_iff]%andb_true_iff Hl]%andb_true_iff.
    destruct (IH _ Hl) as [-> Hfold]. split; [done|].
    unfold Pickle.set_add at 2. rewrite Hfresh, Hfold. by rewrite <- app_assoc.
Qed.

Lemma do_setitems_flat (d : list (pyvalue * pyvalue)) (rest : list byte)
    (st : list Pickle.item) :
  Pickle.distinct [] (map fst d) = true ->
  Pickle.do_setitems (flat d) rest (Pickle.Val (PDict []) :: st) =
  Pickle.Continue rest (Pickle.Val (PDict d) :: st).
Proof.
  intros Hd. unfold Pickle.do_setitems.
  rewrite pairs_flat, (dict_update_distinct [] d) by done.
  by destruct d as [|[k x] d].
Qed.

Lemma do_additems_distinct (l : list pyvalue) (rest : list byte) (st : list Pickle.item) :
  Pickle.distinct [] l = true ->
  Pickle.do_additems l rest (Pickle.Val (PSet []) :: st) =
  Pickle.Continue rest (Pickle.Val (PSet l) :: st).
Proof.
  intros Hd. unfold Pickle.do_additems.
  destruct (set_update_distinct [] l Hd) as [-> ->].
  by destruct l.
Qed.

(** Induction over objects, through the containers. *)
Lemma pyvalue_induction (P : pyvalue -> Prop) :
  P PNone ->
  (forall b, P (PBool b)) ->
  (forall n, P (PInt n)) ->
  (forall s, P (PStr s)) ->
  (forall l, Forall P l -> P (PList l)) ->
  (forall l, Forall P l -> P (PTuple l)) ->
  (forall d, Forall (fun kv => P (fst kv) /\ P (snd kv)) d -> P (PDict d)) ->
  (forall l, Forall P l -> P (PSet l)) ->
  (forall ys e, P (PGen ys e)) ->
  (forall c a, P (PObj c a)) ->
  forall v, P v.
Proof.
  intros HNone HBool HInt HStr HList HTuple HDict HSet HGen HObj.
  fix IH 1. intros [|b|n|s|l|l|d|l|ys e|c a].
  - exact HNone.
  - apply HBool.
  - apply HInt.
  - apply HStr.
  - apply HList. induction l as [|x l IHl]; constructor; [apply IH|exact IHl].
  - apply HTuple. induction l as [|x l IHl]; constructor; [apply IH|exact IHl].
  - apply HDict. induction d as [|[k x] d IHd]; constructor; [|exact IHd].
    split; apply IH.
  - apply HSet. induction l as [|x l IHl]; constructor; [apply IH|exact IHl].
  - apply HGen.
  - apply HObj.
Qed.

Theorem save_loads_back (v : pyvalue) : loads_back v.
Proof.
  induction v using pyvalue_induction; intros bs Hsave rest st.
  - injection Hsave as <-. by apply advances_op.
  - destruct b; injection Hsave as <-; by apply advances_op.
  - by apply save_long_advances.
  - by apply save_str_advances.
  - (* list *)
    simpl in Hsave. destruct l as [|x l].
    + injection Hsave as <-. by apply advances_op.
    + change (Pickle.seq_res (Ret [x5d; x28])
                (Pickle.seq_res (Pickle.save_all Pickle.save (x :: l)) (Ret [x65])) = Ret bs) in Hsave.
      apply seq_res_inv in Hsave as (b0 & b12 & [= <-] & (b1 & b2 & H1 & [= <-] & ->)%seq_res_inv & ->).
      change (([x5d; x28] ++ b1 ++ [x65]) ++ rest) with (x5d :: x28 :: (b1 ++ [x65]) ++ rest).
      rewrite <- app_assoc.
      eapply advances_trans; [by apply advances_op|].
      eapply advances_trans; [by apply advances_op|].
      eapply advances_trans; [by apply save_all_advances|].
      apply advances_op. step_opcode.
      rewrite pop_mark_pushed. simpl. by rewrite app_nil_r.
  - (* tuple *)
    simpl in Hsave. destruct l as [|x l].
    + injection Hsave as <-. by apply advances_op.
    + change (Pickle.seq_res (Ret [x28])
                (Pickle.seq_res (Pickle.save_all Pickle.save (x :: l)) (Ret [x74])) = Ret bs) in Hsave.
      apply seq_res_inv in Hsave as (b0 & b12 & [= <-] & (b1 & b2 & H1 & [= <-] & ->)%seq_res_inv & ->).
      change (([x28] ++ b1 ++ [x74]) ++ rest) with (x28 :: (b1 ++ [x74]) ++ rest).
      rewrite <- app_assoc.
      eapply advances_trans; [by apply advances_op|].
      eapply advances_trans; [by apply save_all_advances|].
      apply advances_op. step_opcode.
      rewrite pop_mark_pushed. simpl. by rewrite app_nil_r.
  - (* dict *)
    simpl in Hsave. destruct (Pickle.distinct [] (map fst d)) eqn:Hd; [|done].
    destruct d as [|kx d].
    + injection Hsave as <-. by apply advances_op.
    + change (Pickle.seq_res (Ret [x7d; x28])
                (Pickle.seq_res (Pickle.save_items Pickle.save (kx :: d)) (Ret [x75])) = Ret bs) in Hsave.
      apply seq_res_inv in Hsave as (b0 & b12 & [= <-] & (b1 & b2 & H1 & [= <-] & ->)%seq_res_inv & ->).
      change (([x7d; x28] ++ b1 ++ [x75]) ++ rest) with (x7d :: x28 :: (b1 ++ [x75]) ++ rest).
      rewrite <- app_assoc.
      eapply advances_trans; [by apply advances_op|].
      eapply advances_trans; [by apply advances_op|].
      eapply advances_trans; [by apply save_items_advances|].
      apply advances_op. step_opcode.
      rewrite pop_mark_pushed. cbn [Pickle.pop_mark]. rewrite app_nil_r.
      by apply do_setitems_flat.
  - (* set *)
    simpl in Hsave. destruct (Pickle.distinct [] l) eqn:Hd; [|done].
    destruct l as [|x l].
    + injection Hsave as <-. by apply advances_op.
    + change (Pickle.seq_res (Ret [x8f; x28])
                (Pickle.seq_res (Pickle.save_all Pickle.save (x :: l)) (Ret [x90])) = Ret bs) in Hsave.
      apply seq_res_inv in Hsave as (b0 & b12 & [= <-] & (b1 & b2 & H1 & [= <-] & ->)%seq_res_inv & ->).
      change (([x8f; x28] ++ b1 ++ [x90]) ++ rest) with (x8f :: x28 :: (b1 ++ [x90]) ++ rest).
      rewrite <- app_assoc.
      eapply advances_trans; [by apply advances_op|].
      eapply advances_trans; [by apply advances_op|].
      eapply advances_trans; [by apply save_all_advances|].
      apply advances_op. step_opcode.
      rewrite pop_mark_pushed. cbn [Pickle.pop_mark]. rewrite app_nil_r.
      by apply do_additems_distinct.
  - done.
  - done.
Qed.

(** [pickle.load] gives back what [pickle.dump] wrote. *)
Theorem cpython_pickle_contract : pickle_contract cpython.
Proof.
  intros v data Hdumps. simpl in Hdumps. unfold Pickle.dumps in Hdumps.
  apply seq_res_inv in Hdumps as (b0 & b12 & [= <-] & (body & b2 & Hsave & [= <-] & ->)%seq_res_inv & ->).
  change (pickle_load ?d) with (Pickle.load d). unfold Pickle.load.
  assert (advances ([x80; x04] ++ body ++ [x2e]) [] [x2e] [Pickle.Val v]) as Hrun.
  { eapply advances_trans; [|by apply save_loads_back].
    apply advances_step; [|simpl; rewrite length_app; lia].
    change ([x80; x04] ++ body ++ [x2e])
      with (x80 :: Pickle.le_encode 1 4 ++ body ++ [x2e]).
    step_opcode. by rewrite (with_bytes_int 1 1 4). }
  destruct (Hrun (S (List.length ([x80; x04] ++ body ++ [x2e])))) as (n' & Hn' & ->); [lia|].
  destruct n' as [|n']; [simpl in Hn'; lia|done].
Qed.

(** The loop never runs out of turns: a turn that continues has read at
    least its opcode. *)
Lemma with_bytes_inv (size : Z) (input : list byte)
    (k : list byte -> list byte -> Pickle.outcome) (i' : list byte) (s' : list Pickle.item) :
  Pickle.with_bytes size input k = Pickle.Continue i' s' ->
  exists a b, (List.length b <= List.length input)%nat /\ k a b = Pickle.Continue i' s'.
Proof.
  unfold Pickle.with_bytes. destruct (size <=? _)%Z.
  - intros H. eexists _, _. split; [|exact H]. rewrite length_drop. lia.
  - by destruct (size <? _)%Z.
Qed.

Ltac continue_inv :=
  repeat match goal with
  | H : Pickle.Fail _ = Pickle.Continue _ _ |- _ => discriminate H
  | H : Pickle.Stop _ = Pickle.Continue _ _ |- _ => discriminate H
  | H : Pickle.Continue _ _ = Pickle.Continue _ _ |- _ => injection H as <- <-
  | H : Pickle.push _ _ _ = Pickle.Continue _ _ |- _ => injection H as <- <-
  | H : Pickle.with_bytes _ _ _ = Pickle.Continue _ _ |- _ =>
      apply with_bytes_inv in H as (? & ? & ? & H)
  | H : Pickle.load_unicode _ _ _ = Pickle.Continue _ _ |- _ =>
      apply with_bytes_inv in H as (? & ? & ? & H)
  | H : (let size := _ in _) = Pickle.Continue _ _ |- _ => cbv zeta in H
  | H : (if ?c then _ else _) = Pickle.Continue _ _ |- _ => destruct c
  | H : match ?x with _ => _ end = Pickle.Continue _ _ |- _ => destruct x
  end.

Lemma step_consumes (i : list byte) (s : list Pickle.item)
    (i' : list byte) (s' : list Pickle.item) :
  Pickle.step i s = Pickle.Continue i' s' -> (List.length i' < List.length i)%nat.
Proof.
  destruct i as [|op i]; [done|].
  unfold Pickle.step, Pickle.do_append, Pickle.do_setitems, Pickle.do_additems.
  destruct op; intros H; continue_inv; simpl; lia.
Qed.

Lemma run_turns (n m : nat) (i : list byte) (s : list Pickle.item) :
  (List.length i < n)%nat -> (List.length i < m)%nat ->
  Pickle.run n i s = Pickle.run m i s.
Proof.
  revert m i s. induction n as [|n IH]; intros m i s Hn Hm; [lia|].
  destruct m as [|m]; [lia|]. simpl.
  destruct (Pickle.step i s) as [i' s'| |] eqn:Hstep; try done.
  pose proof (step_consumes _ _ _ _ Hstep). apply IH; lia.
Qed.

Lemma run_enough (n : nat) (data : list byte) :
  (List.length data < n)%nat -> Pickle.run n data [] = Pickle.load data.
Proof. intros Hn. apply run_turns; [done|lia]. Qed.

(** ** The code on concrete inputs, with the executable runtime *)

(** MD5 test vectors of RFC 1321. *)
Example md5_of_empty : MD5.hexdigest "" = "d41d8cd98f00b204e9800998ecf8427e".
Proof. vm_compute. reflexivity. Qed.

Example md5_of_abc : MD5.hexdigest "abc" = "900150983cd24fb0d6963f7d28e17f72".
Proof. vm_compute. reflexivity. Qed.

(** The bytes CPython 3.11 writes for [['a', 1]] (with its FRAME and
    MEMOIZE opcodes) load to that list. *)
Example load_of_cpython_bytes :
  Pickle.load [x80; x04; x95; x0b; x00; x00; x00; x00; x00; x00; x00;
               x5d; x94; x28; x8c; x01; x61; x94; x4b; x01; x65; x2e]
  = Ret (PList [PStr "a"; PInt 1]).
Proof. vm_compute. reflexivity. Qed.

(** The key of [fetch(client, limit=10)]. *)
Example key_of_a_call :
  Cache.key_str [PStr "fetch"; PObj "AwsClient" [("verbose", PBool true)]]
    [("limit", PInt 10)]
  = "fetch:AwsClient(verbose=True):limit=10".
Proof. vm_compute. reflexivity. Qed.

(** [Cache('cache/')] and [Cache('./cache')] are the store
    [Cache('cache')]; the default directory lies in the home directory. *)
Example init_normalises_the_directory :
  Cache.__init__ "/home/u" (Some "cache/") 60 = Cache.Make "cache" 60
  /\ Cache.__init__ "/home/u" (Some "./cache") 60 = Cache.Make "cache" 60
  /\ Cache.__init__ "/home/u" None 60 = Cache.Make "/home/u/.aws_log_parser_cache" 60
  /\ Cache.__init__ "/" None 60 = Cache.Make "/.aws_log_parser_cache" 60.
Proof. vm_compute. repeat split; reflexivity. Qed.

(** The double difference on the readings of a run: [1700000000.25 -
    1699996400.125] is exact, [0.3 - 0.1] as doubles is the double
    [0.19999999999999998]. *)
Example double_difference :
  (Float.sub (6800000001 # 4) (13599971201 # 8) == 28801 # 8)%Q
  /\ (Float.sub (5404319552844595 # 18014398509481984) (3602879701896397 # 36028797018963968)
      == 7205759403792793 # 36028797018963968)%Q.
Proof. vm_compute. split; reflexivity. Qed.

(** A store with a ttl of one second and [f(x=1)] returning 42: the call
    at time 0 invokes [f] and returns 42, the call at time 1/2 returns 42
    from the cache without invoking [f], the call at time 3/2 invokes [f]
    again. *)
Example three_calls_around_the_ttl :
  let c := Cache.Make "cache" 1 in
  let f : callable := fun _ _ => Ret (PInt 42) in
  let r0 := wrapper c "f" f [] [("x", PInt 1)] 0 0 (World ∅ []) in
  let r1 := wrapper c "f" f [] [("x", PInt 1)] (1 # 2) (1 # 2) (snd r0) in
  let r2 := wrapper c "f" f [] [("x", PInt 1)] (3 # 2) (3 # 2) (snd r1) in
  (fst r0, events (snd r0)) = (Ret (PInt 42), [Invoked [] [("x", PInt 1)]])
  /\ (fst r1, events (snd r1)) = (Ret (PInt 42), [Invoked [] [("x", PInt 1)]])
  /\ (fst r2, events (snd r2))
     = (Ret (PInt 42), [Invoked [] [("x", PInt 1)]; Invoked [] [("x", PInt 1)]]).
Proof. vm_compute. repeat split; reflexivity. Qed.

(** What the materialization step does to each kind of result. *)
Lemma materialize_spec (v : pyvalue) :
  materialize v =
  match v with
  | PStr s => Ret (PList (map PStr (chars s)))
  | PSet l => Ret (PList l)
  | PGen ys None => Ret (PList ys)
  | PGen ys (Some e) => Raise e
  | PNone | PBool _ | PInt _ | PList _ | PTuple _ | PDict _ | PObj _ _ => Ret v
  end.
Proof. destruct v as [| | | | | | | |ys [e|]|]; reflexivity. Qed.

(** C1.  A callable that returns a set, or a string, does not get its
    result back through the wrapper: the set comes back as a list, on the
    first call and from the cache, and the string as the list of its
    characters.  Lists, tuples and dicts do come back as they are, and a
    generator as the list of what it yields ([materialize_spec]). *)
Theorem set_and_str_results_come_back_as_lists :
  let c := Cache.Make "cache" 3600 in
  let tags : callable := fun _ _ => Ret (PSet [PStr "prod"; PStr "edge"]) in
  let region : callable := fun _ _ => Ret (PStr "eu") in
  let first := wrapper c "tags" tags [] [] 0 0 (World ∅ []) in
  let second := wrapper c "tags" tags [] [] 1 1 (snd first) in
  fst first = Ret (PList [PStr "prod"; PStr "edge"])
  /\ fst second = Ret (PList [PStr "prod"; PStr "edge"])
  /\ events (snd second) = [Invoked [] []]
  /\ fst (wrapper c "region" region [] [] 0 0 (World ∅ []))
     = Ret (PList [PStr "e"; PStr "u"]).
Proof. vm_compute. repeat split; reflexivity. Qed.

(** A payload [pickle.load] rejects with an exception that is neither a
    [PickleError] nor an [EOFError] comes out of [get]. *)
Lemma get_propagates_other_errors {rt : Runtime}
    (c : Cache.t) (now : Q) (key : string) (w : world) (f : file) (e : exn_class) :
  files w !! Cache._get_cache_path c key = Some f ->
  Qgtb (Float.sub now (st_mtime f)) (inject_Z (Cache.ttl c)) = false ->
  pickle_load (content f) = Raise e ->
  issubclass e PickleError = false ->
  issubclass e EOFError = false ->
  Cache.get c now key w = (Raise e, w).
Proof.
  intros Hf Hfresh Hload H1 H2.
  by rewrite (get_present _ _ _ _ _ Hf), Hfresh, Hload, H1, H2.
Qed.

(** C4.  The entry of key [k] holds the pickle of the string ['a'] as
    CPython writes it, with the byte of the character damaged ([61] became
    [ff]).  [pickle.load] raises [UnicodeDecodeError], which the [except]
    clause of [get] does not name: [get] raises it instead of reporting a
    miss.  A truncated or empty payload, by contrast, is a miss, and so
    are a key with no file and an expired file (whose payload is not
    read). *)
Theorem get_raises_on_undecodable_payload :
  let c := Cache.Make "cache" 3600 in
  let entry data := World {[ ("cache", "k.pickle") := File 0 data ]} [] in
  let damaged := [x80; x04; x95; x05; x00; x00; x00; x00; x00; x00; x00;
                  x8c; x01; xff; x94; x2e] in
  let truncated := [x80; x04; x95; x05; x00; x00; x00; x00; x00; x00; x00;
                    x8c; x01] in
  Pickle.load damaged = Raise UnicodeDecodeError
  /\ Cache.get c 10 "k" (entry damaged) = (Raise UnicodeDecodeError, entry damaged)
  /\ Cache.get c 10 "k" (entry truncated) = (Ret (false, PNone), entry truncated)
  /\ Cache.get c 10 "k" (entry []) = (Ret (false, PNone), entry [])
  /\ Cache.get c 10 "other" (entry damaged) = (Ret (false, PNone), entry damaged)
  /\ Cache.get c 3601 "k" (entry damaged) = (Ret (false, PNone), entry damaged).
Proof. vm_compute. repeat split; reflexivity. Qed.

(** C6 as stated fails on a store with a negative ttl: the entry is
    expired the moment it is written. *)
Lemma set_then_get_misses_with_negative_ttl :
  let c := Cache.Make "cache" (-1) in
  let w' := snd (Cache.set c 0 "k" (PInt 42) (World ∅ [])) in
  Cache.set c 0 "k" (PInt 42) (World ∅ []) = (Ret tt, w')
  /\ Cache.get c 0 "k" w' = (Ret (false, PNone), w').
Proof. vm_compute. split; reflexivity. Qed.

(** C2 as stated fails within the rounding of the clock difference.
    The entry is written at [t0 = 6649092007880461 * 2^-78] (about
    [2.2e-8]) with a ttl of 3600 and read at [now = 3600 + 48379 * 2^-41],
    both doubles.  The reading is later than [t0 + 3600], by about
    [2.2e-13] seconds, but the double [now - t0] is [3600.0]: a hit. *)
Lemma ttl_expiry_hit_after_the_ttl :
  let c := Cache.Make "cache" 3600 in
  let t0 := (6649092007880461 # 302231454903657293676544)%Q in
  let now := (7916483720035579 # 2199023255552)%Q in
  let w' := snd (Cache.set c t0 "k" (PInt 42) (World ∅ [])) in
  Cache.set c t0 "k" (PInt 42) (World ∅ []) = (Ret tt, w')
  /\ (t0 + inject_Z (Cache.ttl c) < now)%Q
  /\ (Float.sub now t0 == 3600)%Q
  /\ Cache.get c now "k" w' = (Ret (true, PInt 42), w').
Proof. vm_compute. repeat split; reflexivity. Qed.

(** C7 as stated fails in the same way: the sweep at that reading keeps
    the file, though it is older than the ttl. *)
Lemma clear_expired_keeps_within_the_rounding :
  let c := Cache.Make "cache" 3600 in
  let t0 := (6649092007880461 # 302231454903657293676544)%Q in
  let now := (7916483720035579 # 2199023255552)%Q in
  let w := World {[ ("cache", "k.pickle") := File t0 [x80; x04; x4e; x2e] ]} [] in
  (inject_Z (Cache.ttl c) < now - t0)%Q
  /\ Cache.clear_expired c (fun _ => now) w = (Ret tt, w).
Proof. vm_compute. split; reflexivity. Qed.

(** *** Instances of the theorems *)

Lemma ttl_expiry_witness :
  let c := Cache.Make "cache" 3600 in
  let w' := snd (Cache.set c 0 "k" (PInt 42) (World ∅ [])) in
  Cache.get c 3600 "k" w' = (Ret (true, PInt 42), w')
  /\ Cache.get c 3601 "k" w' = (Ret (false, PNone), w').
Proof.
  intros c w'.
  assert (Cache.set c 0 "k" (PInt 42) (World ∅ []) = (Ret tt, w')) as Hset
    by (vm_compute; reflexivity).
  split.
  - destruct (ttl_expiry c "k" (PInt 42) 0 3600 _ w' cpython_pickle_contract Hset)
      as (_ & _ & Hhit & _).
    + vm_compute. reflexivity.
    + apply Hhit. vm_compute. discriminate.
  - destruct (ttl_expiry c "k" (PInt 42) 0 3601 _ w' cpython_pickle_contract Hset)
      as (_ & _ & _ & Hmiss).
    + vm_compute. reflexivity.
    + apply Hmiss. vm_compute. discriminate.
Defined.

Lemma clear_expired_removes_exactly_the_expired_witness :
  let c := Cache.Make "cache" 3600 in
  let old := File 100 [x80; x04; x4e; x2e] in
  let new := File 5000 [x80; x04; x4e; x2e] in
  let w := World (<[("cache", "old.pickle") := old]> {[ ("cache", "new.pickle") := new ]}) [] in
  let w' := snd (Cache.clear_expired c (fun _ => 5000%Q) w) in
  files w' !! ("cache", "old.pickle") = None
  /\ files w' !! ("cache", "new.pickle") = Some new.
Proof.
  intros c old new w w'.
  destruct (clear_expired_removes_exactly_the_expired c (fun _ => 5000%Q) w)
    as (w1 & Hrun & _ & _ & Hkept & Hgone).
  - intros p f Hf. unfold w, files in Hf.
    apply lookup_insert_Some in Hf as [[<- <-]|[_ [<- <-]%lookup_singleton_Some]];
      vm_compute; reflexivity.
  - unfold w'. rewrite Hrun. simpl. split.
    + apply (Hgone _ old); [reflexivity|reflexivity|vm_compute; discriminate].
    + apply (Hkept _ new); [reflexivity|vm_compute; discriminate].
Defined.

Lemma set_then_get_witness :
  let c := Cache.Make "cache" 0 in
  let v := PList [PStr "a"; PStr "b"; PStr "c"] in
  let w' := snd (Cache.set c 5 "k" v (World ∅ [])) in
  Cache.get c 5 "k" w' = (Ret (true, v), w').
Proof.
  intros c v w'.
  apply (set_then_get c "k" v 5 (World ∅ []) w' cpython_pickle_contract).
  - vm_compute. discriminate.
  - vm_compute. reflexivity.
Defined.

Lemma key_independent_of_keyword_order_witness :
  Cache._get_cache_key [PStr "fetch"; PInt 1] [("limit", PInt 10); ("after", PStr "x")]
  = Cache._get_cache_key [PStr "fetch"; PInt 1] [("after", PStr "x"); ("limit", PInt 10)].
Proof.
  apply key_independent_of_keyword_order.
  - repeat constructor; simpl; intuition discriminate.
  - apply perm_swap.
Defined.

Lemma positional_and_keyword_keys_differ_witness :
  Cache.key_str [PStr "fetch"; PInt 1] [] <> Cache.key_str [PStr "fetch"] [("n", PInt 1)]
  /\ Cache._get_cache_key [PStr "fetch"; PInt 1] [] = "d589f0399f7c330d69733ebb64782d63"
  /\ Cache._get_cache_key [PStr "fetch"] [("n", PInt 1)] = "5c0912e507f8189014e4e54237a7c115".
Proof.
  split.
  - apply (positional_and_keyword_keys_differ (PStr "fetch") (PInt 1) "n"
             [PStr "fetch"] [] [] [("n", PInt 1)]).
    apply Permutation_refl.
  - vm_compute. split; reflexivity.
Defined.



Lemma same_name_shares_entry_witness :
  let c1 := Cache.Make "cache" 3600 in
  let c2 := Cache.Make "cache" 60 in
  let cloudfront : callable := fun _ _ => Ret (PList [PStr "cf"]) in
  let waf : callable := fun _ _ => Ret (PList [PStr "waf"]) in
  let w1 := snd (wrapper c1 "read" cloudfront [PStr "logs"] [] 0 1 (World ∅ [])) in
  let run2 := wrapper c2 "read" waf [PStr "logs"] [] 30 31 w1 in
  fst run2 = Ret (PList [PStr "cf"])
  /\ files (snd run2) = files w1.
Proof.
  intros c1 c2 cloudfront waf w1 run2.
  destruct (same_name_shares_entry c1 c2 "read" cloudfront waf [PStr "logs"] []
              0 1 30 31 (World ∅ []) w1 (PList [PStr "cf"]) cpython_pickle_contract)
    as (Hout & Hfiles & _).
  - reflexivity.
  - reflexivity.
  - vm_compute. reflexivity.
  - vm_compute. reflexivity.
  - vm_compute. discriminate.
  - split; [exact Hout|exact Hfiles].
Defined.

(** * Further properties

    The rest of the store, the memoizer on every path, what the key does
    not tell apart, the AWS client, and the host counter of the
    examples. *)

(** ** More on the store *)

Lemma substring_all (s : string) : String.substring 0 (String.length s) s = s.
Proof. induction s as [|a s IH]; simpl; [done|by rewrite IH]. Qed.

Lemma substring_app_r (a b : string) :
  String.substring (String.length a) (String.length b) (a +:+ b) = b.
Proof. induction a as [|x a IH]; simpl; [apply substring_all|exact IH]. Qed.

Lemma endswith_app (a b : string) : endswith (a +:+ b) b = true.
Proof.
  unfold endswith. rewrite length_app_string.
  rewrite (proj2 (Nat.leb_le _ _)) by lia.
  replace (String.length a + String.length b - String.length b)%nat
    with (String.length a) by lia.
  rewrite substring_app_r. apply String.eqb_refl.
Qed.

(** The file of a key is one of the files the sweeps list. *)
Lemma cache_path_in_glob (c : Cache.t) (key : string) :
  in_glob_pickle (Cache.cache_dir c) (Cache._get_cache_path c key) = true.
Proof.
  unfold in_glob_pickle, Cache._get_cache_path. simpl.
  by rewrite String.eqb_refl, endswith_app.
Qed.

Lemma cache_path_inj (c : Cache.t) (k1 k2 : string) :
  Cache._get_cache_path c k1 = Cache._get_cache_path c k2 -> k1 = k2.
Proof. intros [= H]. by apply app_string_cancel_r in H. Qed.

Lemma clear_loop (ps : list (string * string)) (w : world) :
  NoDup ps ->
  (forall p, p ∈ ps -> is_Some (files w !! p)) ->
  exists w',
    for_each ps unlink w = (Ret tt, w')
    /\ events w' = events w
    /\ forall p, files w' !! p = if bool_decide (p ∈ ps) then None else files w !! p.
Proof.
  revert w. induction ps as [|p ps IH]; intros w Hnd Hin.
  - exists w. split; [done|]. split; [done|]. intros p.
    case_bool_decide as Hnil; [by apply not_elem_of_nil in Hnil|done].
  - apply NoDup_cons in Hnd as [Hp Hnd].
    destruct (Hin p (list_elem_of_here _ _)) as [f Hf].
    destruct (IH (set_files (delete p (files w)) w) Hnd) as (w' & Hrun & Hev & Hfiles).
    { intros q Hq. simpl. rewrite lookup_delete_ne by (by intros ->).
      apply Hin. by right. }
    exists w'. split; [|split; [done|]].
    + simpl. unfold bind, unlink at 1. by rewrite Hf.
    + intros q. rewrite Hfiles. simpl.
      destruct (decide (q = p)) as [->|Hq].
      * rewrite (bool_decide_eq_false_2 (p ∈ ps)) by done.
        rewrite (bool_decide_eq_true_2 (p ∈ p :: ps)) by (by left).
        apply lookup_delete_eq.
      * rewrite lookup_delete_ne by done.
        assert (bool_decide (q ∈ p :: ps) = bool_decide (q ∈ ps)) as ->; [|done].
        apply bool_decide_ext. rewrite elem_of_cons.
        split; [intros [?|?]; [congruence|done]|by right].
Qed.

Section StoreExtras.
Context {rt : Runtime}.

(** What [clear] leaves behind. *)
Lemma clear_spec (c : Cache.t) (w : world) :
  exists w',
    Cache.clear c w = (Ret tt, w')
    /\ events w' = events w
    /\ forall p,
        files w' !! p =
        if in_glob_pickle (Cache.cache_dir c) p then None else files w !! p.
Proof.
  destruct (glob_pickle_spec (Cache.cache_dir c) w) as (ps & Hglob & Hnd & Hps).
  destruct (clear_loop ps w Hnd) as (w' & Hrun & Hev & Hfiles).
  { intros p Hp. by apply Hps in Hp as [? _]. }
  exists w'. split; [|split; [done|]].
  - unfold Cache.clear, bind. by rewrite Hglob.
  - intros p. rewrite Hfiles.
    destruct (in_glob_pickle (Cache.cache_dir c) p) eqn:E.
    + destruct (files w !! p) as [f|] eqn:Hf.
      * rewrite bool_decide_eq_true_2; [done|]. apply Hps. eauto.
      * by case_bool_decide.
    + rewrite bool_decide_eq_false_2; [done|]. intros [_ ?]%Hps. congruence.
Qed.

(** X1.  [clear] returns normally and removes exactly the [*.pickle]
    files of the cache directory: a file of another directory or with
    another suffix keeps its content and modification time, and nothing
    is printed or called. *)
Theorem clear_removes_exactly_the_pickle_files (c : Cache.t) (w : world) :
  fst (Cache.clear c w) = Ret tt
  /\ events (snd (Cache.clear c w)) = events w
  /\ forall p,
      files (snd (Cache.clear c w)) !! p =
      if in_glob_pickle (Cache.cache_dir c) p then None else files w !! p.
Proof.
  destruct (clear_spec c w) as (w' & -> & Hev & Hfiles). by simpl.
Qed.


End StoreExtras.

Section StoreExtras2.
Context {rt : Runtime}.

(** X3.  Expiry is monotone in the clock: when [get] is a hit at time
    [now] it is a hit with the same value at every earlier reading, so an
    entry that was seen expired is never served again, whatever runtime
    loads it. *)
Theorem get_hit_at_earlier_times (c : Cache.t) (key : string) (v : pyvalue)
    (t now : Q) (w w' : world) :
  Cache.get c now key w = (Ret (true, v), w') ->
  (t <= now)%Q ->
  Cache.get c t key w = (Ret (true, v), w).
Proof.
  intros Hget Ht.
  destruct (files w !! Cache._get_cache_path c key) as [f|] eqn:Hf.
  - rewrite (get_present c now key w f Hf) in Hget.
    rewrite (get_present c t key w f Hf).
    destruct (Qgtb (Float.sub now (st_mtime f)) _) eqn:Hnow; [done|].
    apply Qgtb_false in Hnow.
    pose proof (sub_mono t now (st_mtime f) Ht) as Hmono.
    rewrite (proj2 (Qgtb_false _ _)) by lra.
    destruct (pickle_load (content f)) as [v'|e].
    + by injection Hget as -> _.
    + by destruct (_ || _).
  - by rewrite (get_absent _ _ _ _ Hf) in Hget.
Qed.

(** X4.  The last write wins: writing a key twice leaves the world that
    the second write alone leaves, with the same outcome, also when the
    first write failed. *)
Theorem set_overwrites (c : Cache.t) (key : string) (v1 v2 : pyvalue)
    (t1 t2 : Q) (w : world) :
  Cache.set c t2 key v2 (snd (Cache.set c t1 key v1 w)) = Cache.set c t2 key v2 w.
Proof.
  rewrite !set_spec.
  destruct (pickle_dumps v1), (pickle_dumps v2); simpl;
    unfold set_files; simpl; by rewrite insert_insert_eq.
Qed.

(** X5.  [set] touches one file: on one store, for file-name safe keys,
    the answer of [get] for any other key is what it was before the
    write, whether the write succeeded or not. *)
Theorem set_leaves_other_keys (c : Cache.t) (key key' : string) (v : pyvalue)
    (t now : Q) (w : world) :
  file_name_safe key = true ->
  file_name_safe key' = true ->
  key' <> key ->
  fst (Cache.get c now key' (snd (Cache.set c t key v w)))
  = fst (Cache.get c now key' w).
Proof.
  intros _ _ Hne.
  assert (Cache._get_cache_path c key <> Cache._get_cache_path c key') as Hp.
  { intros [= Hk]. apply app_string_cancel_r in Hk. congruence. }
  assert (files (snd (Cache.set c t key v w)) !! Cache._get_cache_path c key'
          = files w !! Cache._get_cache_path c key') as Hsame.
  { rewrite set_spec. destruct (pickle_dumps v); simpl; by rewrite lookup_insert_ne. }
  destruct (files w !! Cache._get_cache_path c key') as [f|] eqn:Hf.
  - rewrite (get_present _ _ _ _ _ Hsame), (get_present _ _ _ _ _ Hf).
    destruct (Qgtb _ _); [done|]. destruct (pickle_load _) as [|e]; [done|].
    by destruct (_ || _).
  - by rewrite (get_absent _ _ _ _ Hsame), (get_absent _ _ _ _ Hf).
Qed.

(** X6.  [set] opens the file for writing before it pickles the value.
    When pickling fails, the exception reaches the caller and the entry
    that was stored under the key is lost: with a runtime whose
    [pickle.load] raises [EOFError] on no input, [get] of the key is a
    miss from then on, whatever the clock says. *)
Theorem failed_set_destroys_the_entry (c : Cache.t) (key : string) (v : pyvalue)
    (e : exn_class) (t now : Q) (w : world) :
  pickle_dumps v = Raise e ->
  pickle_load [] = Raise EOFError ->
  let w' := snd (Cache.set c t key v w) in
  fst (Cache.set c t key v w) = Raise e
  /\ Cache.get c now key w' = (Ret (false, PNone), w').
Proof.
  intros Hdumps Hload w'. subst w'. rewrite set_spec, Hdumps. simpl.
  split; [done|].
  assert (files (set_files (<[Cache._get_cache_path c key := File t []]> (files w)) w)
            !! Cache._get_cache_path c key = Some (File t [])) as Hf
    by (simpl; apply lookup_insert_eq).
  rewrite (get_present _ _ _ _ _ Hf). simpl. rewrite Hload.
  by destruct (Qgtb _ _).
Qed.

(** What [clear_expired] leaves behind, file by file. *)
Lemma clear_expired_files (c : Cache.t) (time_time : string * string -> Q) (w : world)
    (p : string * string) :
  files (snd (Cache.clear_expired c time_time w)) !! p =
  match files w !! p with
  | Some f => if swept c time_time (in_glob_pickle (Cache.cache_dir c)) p f
              then None else Some f
  | None => None
  end.
Proof.
  destruct (glob_pickle_spec (Cache.cache_dir c) w) as (ps & Hglob & Hnd & Hps).
  destruct (sweep_loop c time_time ps w Hnd) as (w' & Hrun & Hev & Hfiles).
  { intros q Hq. by apply Hps in Hq as [? _]. }
  assert (Cache.clear_expired c time_time w = (Ret tt, w')) as ->.
  { unfold Cache.clear_expired, bind. rewrite Hglob. exact Hrun. }
  simpl. rewrite Hfiles. destruct (files w !! p) as [f|] eqn:Hf; [|done].
  unfold swept.
  assert (bool_decide (p ∈ ps) = in_glob_pickle (Cache.cache_dir c) p) as ->; [|done].
  destruct (in_glob_pickle (Cache.cache_dir c) p) eqn:E.
  - apply bool_decide_eq_true_2, Hps. eauto.
  - apply bool_decide_eq_false_2. intros [_ ?]%Hps. congruence.
Qed.

(** X7.  The sweep is invisible to readers: at any clock reading not
    before the readings the sweep took, [get] answers after
    [clear_expired] what it would have answered without it, for every
    key.  (What the sweep removes, [get] already treated as a miss.) *)
Theorem clear_expired_preserves_get (c : Cache.t) (time_time : string * string -> Q)
    (now : Q) (key : string) (w : world) :
  (forall p, time_time p <= now)%Q ->
  fst (Cache.get c now key (snd (Cache.clear_expired c time_time w)))
  = fst (Cache.get c now key w).
Proof.
  intros Hclock.
  pose proof (clear_expired_files c time_time w (Cache._get_cache_path c key)) as Hafter.
  destruct (files w !! Cache._get_cache_path c key) as [f|] eqn:Hf.
  - rewrite (get_present _ _ _ _ _ Hf).
    unfold swept in Hafter. rewrite cache_path_in_glob in Hafter. simpl in Hafter.
    destruct (Qgtb (Float.sub (time_time _) (st_mtime f)) _) eqn:Hswept.
    + rewrite (get_absent _ _ _ _ Hafter).
      apply Qgtb_true in Hswept.
      pose proof (sub_mono _ now (st_mtime f) (Hclock (Cache._get_cache_path c key))) as Hmono.
      by rewrite (proj2 (Qgtb_true _ _)) by lra.
    + rewrite (get_present _ _ _ _ _ Hafter).
      destruct (Qgtb (Float.sub now (st_mtime f)) _); [done|].
      destruct (pickle_load _) as [|e]; [done|].
      by destruct (_ || _).
  - by rewrite (get_absent _ _ _ _ Hafter), (get_absent _ _ _ _ Hf).
Qed.

End StoreExtras2.

(** ** More on the memoizer *)

Section MemoizerExtras.
Context {rt : Runtime}.

(** The three ways a call through the wrapper can go: the callable is
    invoked, an entry is served, or the lookup itself fails. *)
Lemma wrapper_cases cache name func args kwargs now later (w : world) :
  let kwargs' := dict_del "force_refresh" kwargs in
  let cache_key := Cache._get_cache_key (PStr name :: args) kwargs' in
  let run := wrapper cache name func args kwargs now later w in
  run = compute cache cache_key func args kwargs' later w
  \/ (exists v, run = (Ret v, if first_arg_verbose args
                             then add_event (Printed ("Using cached data for " +:+ name)) w
                             else w))
  \/ (exists e, run = (Raise e, w)).
Proof.
  intros kwargs' cache_key run.
  destruct (truthy (fst (dict_pop "force_refresh" (PBool false) kwargs))) eqn:Hflag.
  - left. unfold dict_pop in Hflag. simpl in Hflag.
    destruct (dict_get "force_refresh" kwargs) as [flag|] eqn:Hget; [|done].
    by apply wrapper_forced with flag.
  - unfold run. rewrite (wrapper_lookup _ _ _ _ _ _ _ _ Hflag).
    fold kwargs'. fold cache_key.
    destruct (Cache.get cache now cache_key w) as [[[[|] value]|e'] w0]; simpl; eauto.
Qed.

Lemma compute_files cache cache_key func args kwargs later (w : world) :
  let w' := snd (compute cache cache_key func args kwargs later w) in
  files w' = files w
  \/ exists data,
       files w' = <[Cache._get_cache_path cache cache_key := File later data]> (files w).
Proof.
  rewrite compute_spec. simpl.
  destruct (func args kwargs) as [r|e]; [|by left].
  destruct (materialize r) as [r'|e]; [|by left].
  destruct (pickle_dumps r'); right; eauto.
Qed.


(** X9.  Whatever the arguments, the flag, the clock, the store and the
    callable's outcome, a call through the wrapper changes at most one
    file: the one of the key of the call. *)
Theorem wrapper_writes_only_its_entry
    (cache : Cache.t) (name : string) (func : callable)
    (args : list pyvalue) (kwargs : kwargs_t) (now later : Q) (w : world) :
  let cache_key :=
    Cache._get_cache_key (PStr name :: args) (dict_del "force_refresh" kwargs) in
  let w' := snd (wrapper cache name func args kwargs now later w) in
  files w' = files w
  \/ exists data,
       files w' = <[Cache._get_cache_path cache cache_key := File later data]> (files w).
Proof.
  intros cache_key w'. subst w'.
  destruct (wrapper_cases cache name func args kwargs now later w)
    as [-> | [[v ->] | [e ->]]].
  - apply compute_files.
  - left. simpl. by destruct (first_arg_verbose args).
  - by left.
Qed.

(** X10.  A call through the wrapper invokes the callable at most once,
    and never with [force_refresh] among the keyword arguments: the
    events of the call are nothing, the one line of the verbose hit, or
    the one invocation with the positional arguments of the call and its
    keyword arguments minus the flag. *)
Theorem wrapper_invokes_at_most_once
    (cache : Cache.t) (name : string) (func : callable)
    (args : list pyvalue) (kwargs : kwargs_t) (now later : Q) (w : world) :
  let kwargs' := dict_del "force_refresh" kwargs in
  let w' := snd (wrapper cache name func args kwargs now later w) in
  dict_get "force_refresh" kwargs' = None
  /\ (events w' = events w
      \/ events w' = events w ++ [Printed ("Using cached data for " +:+ name)]
      \/ events w' = events w ++ [Invoked args kwargs']).
Proof.
  intros kwargs' w'. subst w'. split; [apply dict_get_del|].
  destruct (wrapper_cases cache name func args kwargs now later w)
    as [-> | [[v ->] | [e ->]]].
  - right. right. apply compute_events.
  - simpl. destruct (first_arg_verbose args); [right; by left|by left].
  - by left.
Qed.

(** X11.  The flag is no part of the key.  When a call with a true
    [force_refresh] returned [v], a call with the same arguments without
    the flag, by any callable wrapped under that name, while the entry is
    fresh, returns [v] and changes no file. *)
Theorem refreshed_entry_is_served
    (cache : Cache.t) (name : string) (f1 f2 : callable)
    (args : list pyvalue) (kwargs : kwargs_t) (flag : pyvalue)
    (now1 later1 now2 later2 : Q) (w w1 : world) (v : pyvalue) :
  pickle_contract rt ->
  dict_get "force_refresh" kwargs = Some flag ->
  truthy flag = true ->
  wrapper cache name f1 args kwargs now1 later1 w = (Ret v, w1) ->
  (now2 - later1 <= inject_Z (Cache.ttl cache))%Q ->
  let run2 := wrapper cache name f2 args (dict_del "force_refresh" kwargs) now2 later2 w1 in
  fst run2 = Ret v /\ files (snd run2) = files w1.
Proof.
  intros Hpickle Hget Hflag Hrun1 Hfresh run2.
  pose proof (dict_get_del "force_refresh" kwargs) as Hnoflag.
  rewrite (wrapper_forced _ _ _ _ _ _ _ _ flag), compute_spec in Hrun1 by done.
  simpl in Hrun1.
  destruct (f1 args (dict_del "force_refresh" kwargs)) as [r|]; [|done].
  destruct (materialize r) as [r'|]; [|done].
  destruct (pickle_dumps r') as [data|] eqn:Hdata; [|done].
  injection Hrun1 as -> <-.
  unfold run2. rewrite wrapper_lookup by (unfold dict_pop; simpl; by rewrite Hnoflag).
  rewrite (dict_del_absent _ _ Hnoflag).
  erewrite get_present by (simpl; apply lookup_insert_eq). simpl.
  rewrite fresh_exact by done.
  rewrite (Hpickle _ _ Hdata).
  split; [done|]. by destruct (first_arg_verbose args).
Qed.




End MemoizerExtras.

(** ** What the key does not tell apart *)

Lemma app_string_assoc (a b c : string) : (a +:+ b) +:+ c = a +:+ (b +:+ c).
Proof.
  induction a as [|x a IH]; [done|].
  change (String x ((a +:+ b) +:+ c) = String x (a +:+ (b +:+ c))). by rewrite IH.
Qed.

(** Joining is blind to a separator inside a part. *)
Lemma concat_split (sep a b : string) (l1 l2 : list string) :
  String.concat sep (l1 ++ (a +:+ sep +:+ b) :: l2)
  = String.concat sep (l1 ++ a :: b :: l2).
Proof.
  induction l1 as [|x l1 IH].
  - simpl. destruct l2 as [|y l2]; [done|]. by rewrite !app_string_assoc.
  - change (String.concat sep (x :: (l1 ++ (a +:+ sep +:+ b) :: l2))
            = String.concat sep (x :: (l1 ++ a :: b :: l2))).
    simpl. destruct l1 as [|y l1]; simpl in *; by rewrite IH.
Qed.

Lemma insert_item_first (x : string * pyvalue) (l : kwargs_t) :
  List.Forall (fun kv => String.leb (fst x) (fst kv) = true) l ->
  insert_item x l = x :: l.
Proof. intros H. destruct H as [|y l Hy _]; simpl; [done|by rewrite Hy]. Qed.

Lemma sorted_first (x : string * pyvalue) (l : kwargs_t) :
  List.Forall (fun kv => String.leb (fst x) (fst kv) = true) l ->
  sorted (x :: l) = x :: sorted l.
Proof.
  intros H. simpl. apply insert_item_first.
  apply List.Forall_forall. intros kv Hkv.
  apply (proj1 (List.Forall_forall _ _) H).
  by apply (Permutation_in _ (sorted_perm l)).
Qed.

Section KeyCollisions.
Context {rt : Runtime}.

(** X15.  The parts of the canonical string are joined with [:] and
    nothing escapes a [:] inside a part: with a [str] that maps a string
    to itself, one positional string [s1:s2] and the two positional
    strings [s1], [s2] give the same canonical string, hence the same
    key and the same cache file. *)
Theorem colon_in_argument_collides
    (before after : list pyvalue) (s1 s2 : string) (kwargs : kwargs_t) (c : Cache.t) :
  (forall s, py_str (PStr s) = s) ->
  let one := before ++ PStr (s1 +:+ ":" +:+ s2) :: after in
  let two := before ++ PStr s1 :: PStr s2 :: after in
  Cache.key_str one kwargs = Cache.key_str two kwargs
  /\ Cache._get_cache_path c (Cache._get_cache_key one kwargs)
     = Cache._get_cache_path c (Cache._get_cache_key two kwargs).
Proof.
  intros Hstr one two.
  assert (Cache.key_str one kwargs = Cache.key_str two kwargs) as Heq.
  { unfold Cache.key_str, one, two. rewrite !map_app. simpl.
    rewrite !Hstr, <- !app_assoc. simpl. apply concat_split. }
  split; [done|]. unfold Cache._get_cache_key. by rewrite Heq.
Qed.

(** X16.  A keyword argument is written [name=str(value)] into the
    canonical string, unmarked: a last positional argument that is the
    string [name=str(v)] gives the same canonical string, key and cache
    file as the keyword argument [name=v], when [name] sorts before the
    other keyword names. *)
Theorem positional_string_collides_with_keyword
    (args : list pyvalue) (name : string) (v : pyvalue) (kwargs : kwargs_t) (c : Cache.t) :
  (forall s, py_str (PStr s) = s) ->
  List.Forall (fun kv => String.leb name (fst kv) = true) kwargs ->
  let positional := args ++ [PStr (name +:+ "=" +:+ py_str v)] in
  Cache.key_str positional kwargs = Cache.key_str args ((name, v) :: kwargs)
  /\ Cache._get_cache_path c (Cache._get_cache_key positional kwargs)
     = Cache._get_cache_path c (Cache._get_cache_key args ((name, v) :: kwargs)).
Proof.
  intros Hstr Hfirst positional.
  assert (Cache.key_str positional kwargs = Cache.key_str args ((name, v) :: kwargs)) as Heq.
  { unfold Cache.key_str, positional.
    rewrite (sorted_first (name, v) kwargs Hfirst).
    rewrite map_app. simpl. rewrite Hstr, <- app_assoc. done. }
  split; [done|]. unfold Cache._get_cache_key. by rewrite Heq.
Qed.

End KeyCollisions.

(** ** The AWS client *)

Lemma subscript_dict_cons (k : string) (v : pyvalue) (items : list (pyvalue * pyvalue)) :
  subscript (PDict ((PStr k, v) :: items)) k = Ret v.
Proof. unfold subscript. simpl. by rewrite String.eqb_refl. Qed.

(** X17.  [get_tag] returns the value of the first tag whose key is
    [name]: tags before it with other keys are skipped, and what comes
    after it (a second tag of that key, a malformed tag) is not looked
    at. *)
Theorem get_tag_returns_the_first_match
    (before after : list pyvalue) (tag : pyvalue) (name : string) (v : pyvalue) :
  List.Forall (fun t => exists k, subscript t "Key" = Ret k /\ eq_str k name = false) before ->
  subscript tag "Key" = Ret (PStr name) ->
  subscript tag "Value" = Ret v ->
  get_tag (before ++ tag :: after) name = Ret v.
Proof.
  intros Hbefore Hkey Hvalue.
  induction Hbefore as [|t before (k & Hk & Hne) _ IH]; simpl.
  - rewrite Hkey. simpl. by rewrite String.eqb_refl.
  - by rewrite Hk, Hne.
Qed.

(** X18.  When no tag has the key [name], and also for no tags at all,
    [get_tag] returns [None]: a missing tag is no error. *)
Theorem get_tag_without_match_is_none (tags : list pyvalue) (name : string) :
  List.Forall (fun t => exists k, subscript t "Key" = Ret k /\ eq_str k name = false) tags ->
  get_tag tags name = Ret PNone.
Proof.
  intros Htags. induction Htags as [|t tags (k & Hk & Hne) _ IH]; simpl; [done|].
  by rewrite Hk, Hne.
Qed.

(** X19.  A tag without a [Key] entry, or an item that is no dict,
    reached before any match makes [get_tag] raise ([KeyError],
    [TypeError]) even when a later tag has the key. *)
Theorem get_tag_raises_on_malformed_tag
    (before after : list pyvalue) (tag : pyvalue) (name : string) (e : exn_class) :
  List.Forall (fun t => exists k, subscript t "Key" = Ret k /\ eq_str k name = false) before ->
  subscript tag "Key" = Raise e ->
  get_tag (before ++ tag :: after) name = Raise e.
Proof.
  intros Hbefore Hkey.
  induction Hbefore as [|t before (k & Hk & Hne) _ IH]; simpl.
  - by rewrite Hkey.
  - by rewrite Hk, Hne.
Qed.

Section ClientExtras.
Context {rt : Runtime} {boto3 : Boto3}.

Import AwsClient.

Ltac run_session :=
  unfold aws_session, then_, this, assign, perform, pure, unit_, print_if_verbose; simpl.

Lemma aws_session_cached (self : t) (s : session) (tr : list effect) :
  _session self = Some s ->
  aws_session (self, tr) = (Ret (Some s), (self, tr)).
Proof. intros H. run_session. rewrite H. simpl. by rewrite H. Qed.

Ltac next_step :=
  match goal with
  | |- context [match ?x with Ret _ => _ | Raise _ => _ end] =>
      lazymatch x with
      | context [match _ with _ => _ end] => fail
      | _ => destruct x eqn:?
      end
  | |- context [if truthy ?x then _ else _] => destruct (truthy x) eqn:?
  | _ => progress simpl
  end.

(** What an access leaves in [_session]. *)
Lemma aws_session_outcome (self : t) (tr : list effect) :
  _session self = None ->
  match aws_session (self, tr) with
  | (Ret r, (self', _)) => exists s, r = Some s /\ _session self' = Some s
  | (Raise e, (self', _)) =>
      match Session [("region_name", region self); ("profile_name", profile self)] with
      | Ret s0 => truthy (role_arn self) = true /\ _session self' = Some s0
      | Raise _ => self' = self
      end
  end.
Proof.
  intros Hnone. run_session. rewrite Hnone.
  repeat next_step; eauto.
Qed.

(** What an access adds to the trace. *)
Lemma aws_session_trace (self : t) (tr : list effect) :
  exists new,
    snd (snd (aws_session (self, tr))) = tr ++ new
    /\ forall sts kw, In (AssumeRole sts kw) new ->
         truthy (role_arn self) = true /\ kw = assume_role_kwargs self.
Proof.
  run_session. destruct (_session self) eqn:Hs; simpl.
  - exists []. split; [by rewrite app_nil_r|]. by intros ? ? [].
  - repeat next_step; rewrite <- ?app_assoc; simpl;
      (eexists; split; [reflexivity|]);
      intros sts kw Hin; simpl in Hin;
      repeat (destruct Hin as [Hin|Hin]; [try discriminate|]); try done;
      injection Hin as <- <-; done.
Qed.

(** X20.  The session is created once.  An access that returns gives a
    session, never [None], and leaves it in [_session]; every later
    access returns that same session without calling boto3, printing or
    changing a field. *)
Theorem aws_session_is_created_once
    (self self' : t) (tr tr' : list effect) (r : option session) :
  aws_session (self, tr) = (Ret r, (self', tr')) ->
  exists s,
    r = Some s
    /\ _session self' = Some s
    /\ forall tr2, aws_session (self', tr2) = (Ret (Some s), (self', tr2)).
Proof.
  intros Hrun. destruct (_session self) as [s|] eqn:Hs.
  - rewrite (aws_session_cached _ s) in Hrun by done. injection Hrun as <- <- <-.
    exists s. split; [done|]. split; [done|]. intros tr2. by apply aws_session_cached.
  - pose proof (aws_session_outcome self tr Hs) as H. rewrite Hrun in H.
    destruct H as (s & -> & Hs'). exists s. split; [done|]. split; [done|].
    intros tr2. by apply aws_session_cached.
Qed.

(** X21.  The base session is stored before the role is assumed.  When
    the first access creates the base session and then fails on the way
    to the role (the STS client, [assume_role], a missing credential
    entry, the second session), the exception reaches the caller, but
    [_session] keeps the base session: every later access returns it,
    silently, and the role is never tried again. *)
Theorem failed_role_assumption_keeps_the_base_session
    (self self' : t) (tr tr' : list effect) (e : exn_class) (s0 : session) :
  _session self = None ->
  Session [("region_name", region self); ("profile_name", profile self)] = Ret s0 ->
  aws_session (self, tr) = (Raise e, (self', tr')) ->
  truthy (role_arn self) = true
  /\ _session self' = Some s0
  /\ forall tr2, aws_session (self', tr2) = (Ret (Some s0), (self', tr2)).
Proof.
  intros Hs Hbase Hrun.
  pose proof (aws_session_outcome self tr Hs) as H. rewrite Hrun, Hbase in H.
  destruct H as [Hrole Hs']. split; [done|]. split; [done|].
  intros tr2. by apply aws_session_cached.
Qed.

(** X22.  What STS is asked.  A call of [assume_role] made by an access
    happens only for a true [role_arn] and carries it as [RoleArn]; its
    [RoleSessionName] is never empty or [None]: it is
    [role_session_name] when that is true and [aws-log-parser-session]
    otherwise; and [ExternalId] is passed exactly when [external_id] is
    true. *)
Theorem assume_role_arguments
    (self : t) (tr new : list effect) (sts : client) (kw : kwargs_t) :
  snd (snd (aws_session (self, tr))) = tr ++ new ->
  In (AssumeRole sts kw) new ->
  truthy (role_arn self) = true
  /\ dict_get "RoleArn" kw = Some (role_arn self)
  /\ (exists n,
        dict_get "RoleSessionName" kw = Some n
        /\ truthy n = true
        /\ n = if truthy (role_session_name self)
               then role_session_name self
               else PStr "aws-log-parser-session")
  /\ dict_get "ExternalId" kw =
     if truthy (external_id self) then Some (external_id self) else None.
Proof.
  intros Htr Hin.
  destruct (aws_session_trace self tr) as (new' & Htr' & Hnew).
  rewrite Htr in Htr'. apply app_inv_head in Htr'. subst new'.
  destruct (Hnew sts kw Hin) as [Hrole ->].
  split; [done|]. unfold assume_role_kwargs, or_.
  destruct (truthy (external_id self)), (truthy (role_session_name self)) eqn:Hname;
    simpl; (split; [done|]); (split; [|done]); eexists; (split; [reflexivity|]); done.
Qed.

(** X23.  Clients are not kept, the session is.  After [aws_client]
    (so also [ec2_client] and [s3_client]) returned a client, it came
    from the session in [_session], and every further client access asks
    that one session for a new client and does nothing else. *)
Theorem clients_share_the_session
    (name1 name2 : string) (self self' : t) (tr tr' : list effect) (c1 : client) :
  aws_client name1 (self, tr) = (Ret c1, (self', tr')) ->
  exists s,
    _session self' = Some s
    /\ session_client s name1 = Ret c1
    /\ aws_client name2 (self', tr')
       = (session_client s name2, (self', tr' ++ [NewClient s name2])).
Proof.
  unfold aws_client at 1. unfold then_ at 1.
  destruct (aws_session (self, tr)) as [[r|e] [self1 tr1]] eqn:Hrun; [|done].
  assert (exists s, r = Some s /\ _session self1 = Some s) as (s & -> & Hs).
  { destruct (_session self) as [s|] eqn:Hs.
    - rewrite (aws_session_cached _ s) in Hrun by done. injection Hrun as <- <- <-. eauto.
    - pose proof (aws_session_outcome self tr Hs) as H. by rewrite Hrun in H. }
  unfold perform. simpl. intros [= Hc <- <-].
  exists s. split; [done|]. split; [done|].
  unfold aws_client, then_. by rewrite (aws_session_cached _ s).
Qed.

End ClientExtras.

(** ** Counting hosts *)

Lemma tally_count_up (c : list (string * Z)) (k ip : string) :
  tally (count_up c k) ip = (tally c ip + if String.eqb k ip then 1 else 0)%Z.
Proof.
  induction c as [|[k' n] c IH]; simpl.
  - by destruct (String.eqb k ip).
  - destruct (String.eqb k' k) eqn:Hk; simpl.
    + apply String.eqb_eq in Hk as ->. destruct (String.eqb k ip); lia.
    + destruct (String.eqb k' ip) eqn:Hip; [|done].
      apply String.eqb_eq in Hip as ->. rewrite String.eqb_sym, Hk. lia.
Qed.

Lemma keys_count_up (c : list (string * Z)) (k ip : string) :
  In ip (map fst (count_up c k)) <-> ip = k \/ In ip (map fst c).
Proof.
  induction c as [|[k' n] c IH]; simpl.
  - intuition.
  - destruct (String.eqb k' k) eqn:Hk; simpl.
    + apply String.eqb_eq in Hk as ->. intuition.
    + rewrite IH. intuition.
Qed.

Lemma nodup_count_up (c : list (string * Z)) (k : string) :
  List.NoDup (map fst c) -> List.NoDup (map fst (count_up c k)).
Proof.
  induction c as [|[k' n] c IH]; simpl; intros Hnd.
  - constructor; [by intros []|constructor].
  - apply List.NoDup_cons_iff in Hnd as [Hk' Hnd].
    destruct (String.eqb k' k) eqn:Hk; simpl.
    + by constructor.
    + constructor; [|by apply IH].
      rewrite keys_count_up. intros [->|?]; [|done].
      by rewrite String.eqb_refl in Hk.
Qed.

Lemma in_counter (c : list (string * Z)) (ip : string) (n : Z) :
  List.NoDup (map fst c) ->
  In (ip, n) c <-> In ip (map fst c) /\ tally c ip = n.
Proof.
  induction c as [|[k' m] c IH]; simpl; intros Hnd.
  - intuition.
  - apply List.NoDup_cons_iff in Hnd as [Hk' Hnd]. specialize (IH Hnd).
    destruct (String.eqb k' ip) eqn:Hip.
    + apply String.eqb_eq in Hip as ->. split.
      * intros [[= ->]|Hin]; [by split; [left|]|].
        exfalso. apply Hk'. apply IH in Hin as [? _]. done.
      * intros [_ ->]. by left.
    + split.
      * intros [[= -> ->]|Hin]; [by rewrite String.eqb_refl in Hip|].
        apply IH in Hin as [? ?]. split; [by right|done].
      * intros [[->|Hin] Ht]; [by rewrite String.eqb_refl in Hip|].
        right. by apply IH.
Qed.

Lemma counter_fold (ips : list string) (c : list (string * Z)) :
  let c' := fold_left count_up ips c in
  (List.NoDup (map fst c) -> List.NoDup (map fst c'))
  /\ (forall ip, In ip (map fst c') <-> In ip (map fst c) \/ In ip ips)
  /\ (forall ip, tally c' ip = (tally c ip + occurrences ip ips)%Z).
Proof.
  revert c. induction ips as [|k ips IH]; intros c; simpl.
  - split; [done|]. split; [intuition|]. intros ip. unfold occurrences. simpl. lia.
  - destruct (IH (count_up c k)) as (Hnd & Hkeys & Htally).
    split; [intros ?; by apply Hnd, nodup_count_up|]. split.
    + intros ip. rewrite Hkeys, keys_count_up. intuition.
    + intros ip. rewrite Htally, tally_count_up. unfold occurrences. simpl.
      rewrite (String.eqb_sym k ip).
      destruct (String.eqb ip k); simpl; lia.
Qed.

Lemma Counter_spec (ip_attr : string) (entries : list pyvalue) (ips : list string)
    (c : list (string * Z)) :
  Forall2 (fun entry ip => attrgetter ip_attr entry = Ret (PStr ip)) entries ips ->
  Counter ip_attr entries c = Ret (fold_left count_up ips c).
Proof.
  intros H. revert c. induction H as [|entry ip entries ips Hentry _ IH]; intros c; simpl.
  - done.
  - by rewrite Hentry, IH.
Qed.

Lemma for_each_emit {A} (line : A -> string) (l : list A) (w : world) :
  for_each l (fun x => emit (Printed (line x))) w
  = (Ret tt, World (files w) (events w ++ map (fun x => Printed (line x)) l)).
Proof.
  revert w. induction l as [|x l IH]; intros w; simpl.
  - unfold ret. destruct w. simpl. by rewrite app_nil_r.
  - unfold bind, emit. rewrite IH. simpl. by rewrite <- app_assoc.
Qed.

Lemma sorted_as_items (items : list (string * Z)) :
  StronglySorted key_le (map as_item items) ->
  StronglySorted (fun a b => String.leb (fst a) (fst b) = true) items.
Proof.
  induction items as [|a items IH]; simpl; intros H; [constructor|].
  apply StronglySorted_inv in H as [Hs Ha]. constructor; [by apply IH|].
  apply List.Forall_forall. intros b Hb.
  apply (proj1 (List.Forall_forall _ _) Ha (as_item b)). by apply in_map.
Qed.

Section CountHostsExtras.
Context {rt : Runtime}.

(** X24.  When every entry has the attribute, [count_ips] returns
    normally, touches no file, and prints one line [ip: count] for each
    address that occurs, each address once, in ascending order of the
    addresses compared as strings, with the number of entries that have
    that address. *)
Theorem count_ips_prints_each_address_once_in_order
    (entries : list pyvalue) (ips : list string) (ip_attr : string) (w : world) :
  Forall2 (fun entry ip => attrgetter ip_attr entry = Ret (PStr ip)) entries ips ->
  exists items : list (string * Z),
    count_ips entries ip_attr w
    = (Ret tt,
       World (files w) (events w ++ map (fun kn => Printed (count_line (as_item kn))) items))
    /\ StronglySorted (fun a b => String.leb (fst a) (fst b) = true) items
    /\ List.NoDup (map fst items)
    /\ forall ip n, In (ip, n) items <-> In ip ips /\ n = occurrences ip ips.
Proof.
  intros Hentries.
  pose proof (Counter_spec ip_attr entries ips [] Hentries) as Hcounter.
  destruct (counter_fold ips []) as (Hnd & Hkeys & Htally).
  set (c := fold_left count_up ips []) in *.
  destruct (Permutation_map_inv as_item c (sorted_perm (map as_item c)))
    as (items & Hitems & Hperm).
  exists items. split; [|split; [|split]].
  - unfold count_ips, bind, lift. rewrite Hcounter.
    change (fun kn : string * Z => (fst kn, PInt (snd kn))) with as_item.
    rewrite Hitems, for_each_emit. by rewrite map_map.
  - apply sorted_as_items. rewrite <- Hitems. apply sorted_sorted.
  - apply (Permutation_NoDup (Permutation_map fst Hperm)). apply Hnd. constructor.
  - intros ip n.
    assert (In (ip, n) items <-> In (ip, n) c) as ->.
    { split; apply Permutation_in; [by symmetry|done]. }
    rewrite in_counter by (apply Hnd; constructor).
    rewrite Hkeys, Htally. simpl. intuition lia.
Qed.

(** X25.  The counter is built before anything is printed: when one
    entry lacks the attribute, [count_ips] raises what [attrgetter]
    raises and prints nothing, not even the counts of the entries
    before it. *)
Theorem count_ips_prints_nothing_on_failure
    (before after : list pyvalue) (ips : list string) (entry : pyvalue)
    (ip_attr : string) (e : exn_class) (w : world) :
  Forall2 (fun entry ip => attrgetter ip_attr entry = Ret (PStr ip)) before ips ->
  attrgetter ip_attr entry = Raise e ->
  count_ips (before ++ entry :: after) ip_attr w = (Raise e, w).
Proof.
  intros Hbefore Hentry.
  assert (forall c, Counter ip_attr (before ++ entry :: after) c = Raise e) as Hcounter.
  { induction Hbefore as [|x ip before ips Hx _ IH]; intros c; simpl.
    - by rewrite Hentry.
    - by rewrite Hx, IH. }
  unfold count_ips, bind, lift. by rewrite Hcounter.
Qed.

End CountHostsExtras.

(** *** Instances of the further theorems *)

Lemma get_hit_at_earlier_times_witness :
  let c := Cache.Make "cache" 60 in
  let w := snd (Cache.set c 100 "k" (PStr "v") (World ∅ [])) in
  Cache.get c 130 "k" w = (Ret (true, PStr "v"), w).
Proof.
  intros c w.
  apply (get_hit_at_earlier_times c "k" (PStr "v") 130 160 w w).
  - vm_compute. reflexivity.
  - vm_compute. discriminate.
Defined.

Lemma set_leaves_other_keys_witness :
  let c := Cache.Make "cache" 60 in
  let w := snd (Cache.set c 0 "b" (PInt 2) (World ∅ [])) in
  fst (Cache.get c 1 "b" (snd (Cache.set c 1 "a" (PInt 1) w))) = Ret (true, PInt 2).
Proof.
  intros c w.
  rewrite (set_leaves_other_keys c "a" "b" (PInt 1) 1 1 w).
  - vm_compute. reflexivity.
  - reflexivity.
  - reflexivity.
  - discriminate.
Defined.

Lemma failed_set_destroys_the_entry_witness :
  let c := Cache.Make "cache" 60 in
  let w := snd (Cache.set c 0 "k" (PInt 1) (World ∅ [])) in
  let w' := snd (Cache.set c 1 "k" (PList [PGen [] None]) w) in
  fst (Cache.get c 1 "k" w) = Ret (true, PInt 1)
  /\ fst (Cache.set c 1 "k" (PList [PGen [] None]) w) = Raise TypeError
  /\ Cache.get c 1 "k" w' = (Ret (false, PNone), w').
Proof.
  intros c w w'. split; [vm_compute; reflexivity|].
  apply (failed_set_destroys_the_entry c "k" (PList [PGen [] None]) TypeError 1 1 w).
  - vm_compute. reflexivity.
  - vm_compute. reflexivity.
Defined.

Lemma clear_expired_preserves_get_witness :
  let c := Cache.Make "cache" 60 in
  let w := snd (Cache.set c 90 "new" (PInt 2) (snd (Cache.set c 0 "old" (PInt 1) (World ∅ [])))) in
  let w' := snd (Cache.clear_expired c (fun _ => 100%Q) w) in
  fst (Cache.get c 100 "old" w') = fst (Cache.get c 100 "old" w)
  /\ fst (Cache.get c 100 "new" w') = fst (Cache.get c 100 "new" w).
Proof.
  intros c w w'.
  split; apply (clear_expired_preserves_get c (fun _ => 100%Q) 100); intros p; apply Qle_refl.
Defined.


Lemma refreshed_entry_is_served_witness :
  let c := Cache.Make "cache" 3600 in
  let f1 : callable := fun _ _ => Ret (PInt 1) in
  let f2 : callable := fun _ _ => Ret (PInt 2) in
  let kwargs := [("n", PInt 5); ("force_refresh", PBool true)] in
  let w1 := snd (wrapper c "f" f1 [] kwargs 0 0 (World ∅ [])) in
  let run2 := wrapper c "f" f2 [] [("n", PInt 5)] 10 10 w1 in
  fst run2 = Ret (PInt 1) /\ files (snd run2) = files w1.
Proof.
  intros c f1 f2 kwargs w1 run2.
  apply (refreshed_entry_is_served c "f" f1 f2 [] kwargs (PBool true) 0 0 10 10
           (World ∅ []) w1 (PInt 1) cpython_pickle_contract).
  - reflexivity.
  - reflexivity.
  - vm_compute. reflexivity.
  - vm_compute. discriminate.
Defined.




Lemma colon_in_argument_collides_witness :
  let c := Cache.Make "cache" 3600 in
  Cache.key_str [PStr "read"; PStr "logs:2024"] [] = Cache.key_str [PStr "read"; PStr "logs"; PStr "2024"] []
  /\ Cache._get_cache_path c (Cache._get_cache_key [PStr "read"; PStr "logs:2024"] [])
     = Cache._get_cache_path c (Cache._get_cache_key [PStr "read"; PStr "logs"; PStr "2024"] []).
Proof.
  intros c.
  apply (colon_in_argument_collides [PStr "read"] [] "logs" "2024" [] c).
  intros s. reflexivity.
Defined.

Lemma positional_string_collides_with_keyword_witness :
  let c := Cache.Make "cache" 3600 in
  Cache.key_str [PStr "read"; PStr "limit=10"] [("since", PInt 3)]
  = Cache.key_str [PStr "read"] [("limit", PInt 10); ("since", PInt 3)]
  /\ Cache._get_cache_path c (Cache._get_cache_key [PStr "read"; PStr "limit=10"] [("since", PInt 3)])
     = Cache._get_cache_path c
         (Cache._get_cache_key [PStr "read"] [("limit", PInt 10); ("since", PInt 3)]).
Proof.
  intros c.
  assert (forall s, py_str (PStr s) = s) as Hstr by (intros s; reflexivity).
  assert (List.Forall (fun kv : string * pyvalue => String.leb "limit" (fst kv) = true)
            [("since", PInt 3)]) as Hfirst by (repeat constructor).
  pose proof (positional_string_collides_with_keyword [PStr "read"] "limit" (PInt 10)
                [("since", PInt 3)] c Hstr Hfirst) as H.
  vm_compute in H. vm_compute. exact H.
Defined.

Lemma get_tag_returns_the_first_match_witness :
  get_tag
    [PDict [(PStr "Key", PStr "env"); (PStr "Value", PStr "prod")];
     PDict [(PStr "Key", PStr "Name"); (PStr "Value", PStr "edge-1")];
     PDict [(PStr "Key", PStr "Name"); (PStr "Value", PStr "edge-2")];
     PNone]
    "Name"
  = Ret (PStr "edge-1").
Proof.
  apply (get_tag_returns_the_first_match
           [PDict [(PStr "Key", PStr "env"); (PStr "Value", PStr "prod")]]
           [PDict [(PStr "Key", PStr "Name"); (PStr "Value", PStr "edge-2")]; PNone]
           (PDict [(PStr "Key", PStr "Name"); (PStr "Value", PStr "edge-1")])
           "Name" (PStr "edge-1")).
  - constructor; [|constructor]. exists (PStr "env"). split; reflexivity.
  - reflexivity.
  - reflexivity.
Defined.

Lemma get_tag_without_match_is_none_witness :
  get_tag [PDict [(PStr "Key", PStr "env"); (PStr "Value", PStr "prod")]] "Name" = Ret PNone.
Proof.
  apply get_tag_without_match_is_none.
  constructor; [|constructor]. exists (PStr "env"). split; reflexivity.
Defined.

Lemma get_tag_raises_on_malformed_tag_witness :
  get_tag
    [PDict [(PStr "Value", PStr "prod")];
     PDict [(PStr "Key", PStr "Name"); (PStr "Value", PStr "edge-1")]]
    "Name"
  = Raise (UserError "KeyError").
Proof.
  apply (get_tag_raises_on_malformed_tag []
           [PDict [(PStr "Key", PStr "Name"); (PStr "Value", PStr "edge-1")]]
           (PDict [(PStr "Value", PStr "prod")]) "Name" (UserError "KeyError")).
  - constructor.
  - reflexivity.
Defined.

Lemma aws_session_is_created_once_witness :
  let sts := fun _ : kwargs_t =>
    Ret (PDict [(PStr "Credentials",
                 PDict [(PStr "AccessKeyId", PStr "AKIA");
                        (PStr "SecretAccessKey", PStr "secret");
                        (PStr "SessionToken", PStr "token")])]) in
  let granted := boto3_double sts in
  let self := @AwsClient.Make granted (PStr "eu-west-1") PNone (PStr "arn:aws:iam::1:role/logs")
                PNone PNone (PBool true) None None None in
  let assumed := [("aws_access_key_id", PStr "AKIA");
                  ("aws_secret_access_key", PStr "secret");
                  ("aws_session_token", PStr "token");
                  ("region_name", PStr "eu-west-1")] in
  let first := @AwsClient.aws_session cpython granted (self, []) in
  fst first = Ret (Some assumed)
  /\ @AwsClient.aws_session cpython granted (snd first) = (Ret (Some assumed), snd first).
Proof.
  intros sts granted self assumed first.
  assert (first = (Ret (Some assumed), snd first)) as Hfirst by (vm_compute; reflexivity).
  destruct (snd first) as [self' tr'] eqn:Hsnd.
  destruct (@aws_session_is_created_once cpython granted self self' [] tr' (Some assumed) Hfirst)
    as (s & Hs & _ & Hnext).
  injection Hs as <-.
  split; [by rewrite Hfirst|]. apply Hnext.
Defined.

Lemma failed_role_assumption_keeps_the_base_session_witness :
  let denied := boto3_double (fun _ => Raise (UserError "ClientError")) in
  let self := @AwsClient.Make denied (PStr "eu-west-1") PNone (PStr "arn:aws:iam::1:role/logs")
                PNone PNone (PBool false) None None None in
  let base := [("region_name", PStr "eu-west-1"); ("profile_name", PNone)] in
  let first := @AwsClient.aws_session cpython denied (self, []) in
  fst first = Raise (UserError "ClientError")
  /\ @AwsClient.aws_session cpython denied (snd first) = (Ret (Some base), snd first).
Proof.
  intros denied self base first.
  assert (first = (Raise (UserError "ClientError"), snd first)) as Hfirst
    by (vm_compute; reflexivity).
  destruct (snd first) as [self' tr'] eqn:Hsnd.
  destruct (@failed_role_assumption_keeps_the_base_session cpython denied self self' [] tr'
              (UserError "ClientError") base eq_refl eq_refl Hfirst) as (_ & _ & Hnext).
  split; [by rewrite Hfirst|]. apply Hnext.
Defined.

Lemma assume_role_arguments_witness :
  let denied := boto3_double (fun _ => Raise (UserError "ClientError")) in
  let self := @AwsClient.Make denied PNone PNone (PStr "arn:aws:iam::1:role/logs")
                (PStr "") PNone (PBool false) None None None in
  let kw := [("RoleArn", PStr "arn:aws:iam::1:role/logs");
             ("RoleSessionName", PStr "aws-log-parser-session")] in
  dict_get "RoleSessionName" kw = Some (PStr "aws-log-parser-session")
  /\ dict_get "ExternalId" kw = None.
Proof.
  intros denied self kw.
  destruct (@assume_role_arguments cpython denied self []
              [@AwsClient.NewSession denied [("region_name", PNone); ("profile_name", PNone)];
               @AwsClient.NewClient denied [("region_name", PNone); ("profile_name", PNone)] "sts";
               @AwsClient.AssumeRole denied
                 ([("region_name", PNone); ("profile_name", PNone)], "sts") kw]
              ([("region_name", PNone); ("profile_name", PNone)], "sts") kw)
    as (_ & _ & (n & Hn & _ & Hdefault) & Hexternal).
  - vm_compute. reflexivity.
  - simpl. right. right. by left.
  - split; [by rewrite Hn, Hdefault|exact Hexternal].
Defined.

Lemma clients_share_the_session_witness :
  let plain := boto3_double (fun _ => Raise (UserError "ClientError")) in
  let self := @AwsClient.Make plain (PStr "eu-west-1") PNone PNone PNone PNone (PBool false)
                None None None in
  let base := [("region_name", PStr "eu-west-1"); ("profile_name", PNone)] in
  let first := @AwsClient.ec2_client cpython plain (self, []) in
  let second := @AwsClient.s3_client cpython plain (snd first) in
  fst first = Ret (base, "ec2")
  /\ second = (Ret (base, "s3"), (fst (snd first), snd (snd first) ++ [@AwsClient.NewClient plain base "s3"])).
Proof.
  intros plain self base first second.
  assert (first = (Ret (base, "ec2"), snd first)) as Hfirst by (vm_compute; reflexivity).
  unfold second. destruct (snd first) as [self' tr'] eqn:Hsnd.
  destruct (@clients_share_the_session cpython plain "ec2" "s3" self self' [] tr' (base, "ec2")
              Hfirst) as (s & Hs & _ & Hnext).
  assert (s = base) as ->.
  { assert (AwsClient._session self' = Some base) as Hbase
      by (change self' with (fst (self', tr')); rewrite <- Hsnd; vm_compute; reflexivity).
    congruence. }
  split; [by rewrite Hfirst|]. exact Hnext.
Defined.

Lemma count_ips_prints_each_address_once_in_order_witness :
  let entry ip := PObj "LoadBalancerLogEntry" [("client", PObj "Host" [("ip", PStr ip)])] in
  let entries := [entry "10.0.0.2"; entry "10.0.0.1"; entry "10.0.0.2"] in
  let ips := ["10.0.0.2"; "10.0.0.1"; "10.0.0.2"] in
  count_ips entries "client.ip" (World ∅ [])
  = (Ret tt, World ∅ [Printed "10.0.0.1: 1"; Printed "10.0.0.2: 2"])
  /\ exists items : list (string * Z),
       events (snd (count_ips entries "client.ip" (World ∅ [])))
       = map (fun kn => Printed (count_line (as_item kn))) items
       /\ forall ip n, In (ip, n) items <-> In ip ips /\ n = occurrences ip ips.
Proof.
  intros entry entries ips. split; [vm_compute; reflexivity|].
  destruct (count_ips_prints_each_address_once_in_order entries ips "client.ip" (World ∅ []))
    as (items & Hrun & _ & _ & Hitems).
  - repeat constructor.
  - exists items. split; [by rewrite Hrun|exact Hitems].
Defined.

Lemma count_ips_prints_nothing_on_failure_witness :
  let entries := [PObj "CloudFrontWebDistributionLogEntry" [("client_ip", PStr "10.0.0.1")];
                  PObj "WafLogEntry" [("action", PStr "ALLOW")]] in
  count_ips entries "client_ip" (World ∅ []) = (Raise AttributeError, World ∅ []).
Proof.
  intros entries.
  apply (count_ips_prints_nothing_on_failure
           [PObj "CloudFrontWebDistributionLogEntry" [("client_ip", PStr "10.0.0.1")]] []
           ["10.0.0.1"] (PObj "WafLogEntry" [("action", PStr "ALLOW")]) "client_ip"
           AttributeError (World ∅ [])).
  - repeat constructor.
  - reflexivity.
Defined.
